(** * Code_Reviewer_CLI: the file-selection and document-assembly pipeline

    A shallow embedding of [src/code_reviewer.py] (class [CodeReviewer]):
    pattern matching ([_should_ignore], [_load_ignore_patterns]), traversal
    ([_collect_files]), layout rendering ([_build_directory_layout]), reading
    ([_read_file_safely]), sanitising ([_sanitize_for_json]) and assembly
    ([_build_prompt]); then the program around them: the constructor
    ([__init__], [_get_api_key], [_load_system_prompt]), the call of the
    server ([_call_deepseek_api]), [review] and [main].

    Python values are modelled as follows.
    - [str] is a list of Unicode code points ([N]); comparison is by code
      point, as in Python.
    - a [Set[str]] is a [gset str]; iterating over it visits [elements].
    - a [pathlib.Path] is the list of its parts; [Path.name] is the last one.
    - a [dict] whose insertion order is observable is an association list.
    - a function that may raise returns a [result]; one that also prints
      warnings runs in [io], with [try_except] for its handlers.
    - the file system is a tree of entries for the traversal and a [disk]
      of byte strings for reading.
    - the program around them runs in [run], which records what is printed
      and knows [SystemExit] and [KeyboardInterrupt]; the server behind
      [requests.post], the decoder behind [response.json()] and [argparse]
      are parameters. *)

From Stdlib Require Import NArith ZArith List Ascii String Bool Lia Permutation
  SpecFloat.
From stdpp Require Import base decidable option list gmap sets sorting.

Import ListNotations.
Set Warnings "-register-all".
Local Open Scope N_scope.
Local Open Scope list_scope.

(** ** Python [str] *)

Abbreviation char := N (only parsing).
Abbreviation str := (list N) (only parsing).

(** An ASCII literal as a [str]. *)
Definition py (x : string) : str := map N_of_ascii (list_ascii_of_string x).
Arguments py x%_string.

Definition NUL : char := 0.
Definition LF : char := 10.
Definition CR : char := 13.
Definition HASH : char := 35.
Definition DOLLAR : char := 36.
Definition STAR : char := 42.
Definition DOT : char := 46.
Definition SLASH : char := 47.
Definition QUESTION : char := 63.
Definition BACKSLASH : char := 92.
Definition CARET : char := 94.

Definition str_eqb (a b : str) : bool := bool_decide (a = b).

(** [c in s] for a one-character [c]. *)
Definition contains (c : char) (s : str) : bool := existsb (N.eqb c) s.

Fixpoint startswith (s pre : str) {struct pre} : bool :=
  match pre, s with
  | [], _ => true
  | p :: pre', c :: s' => (c =? p) && startswith s' pre'
  | _ :: _, [] => false
  end.

Definition endswith (s suf : str) : bool := startswith (rev s) (rev suf).

(** [str.replace(old, new)]: occurrences are found left to right and do not
    overlap. [skip] counts the characters of a matched occurrence that are
    still to be dropped. *)
Fixpoint replace_from (old new : str) (skip : nat) (s : str) : str :=
  match s with
  | [] => []
  | c :: t =>
      match skip with
      | S k => replace_from old new k t
      | O =>
          if startswith s old
          then new ++ replace_from old new (Nat.pred (length old)) t
          else c :: replace_from old new O t
      end
  end.

Definition replace (old new s : str) : str :=
  match old with
  | [] => new ++ flat_map (fun c => c :: new) s
  | _ :: _ => replace_from old new O s
  end.

(** [str.isspace] on one code point: the Unicode white-space characters. *)
Definition isspace (c : char) : bool :=
  ((9 <=? c) && (c <=? 13)) || ((28 <=? c) && (c <=? 32))
  || (c =? 133) || (c =? 160) || (c =? 5760)
  || ((8192 <=? c) && (c <=? 8202))
  || (c =? 8232) || (c =? 8233) || (c =? 8239) || (c =? 8287) || (c =? 12288).

Fixpoint lstrip (s : str) : str :=
  match s with
  | c :: t => if isspace c then lstrip t else s
  | [] => []
  end.

Definition rstrip (s : str) : str := rev (lstrip (rev s)).

Definition strip (s : str) : str := rstrip (lstrip s).

(** [sep.join(xs)]. *)
Fixpoint join (sep : str) (xs : list str) : str :=
  match xs with
  | [] => []
  | [x] => x
  | x :: rest => x ++ sep ++ join sep rest
  end.

(** Code-point order on [str], and the lexicographic order it induces on
    sequences (tuples and lists compare element by element). *)
Fixpoint lex_compare {A} (cmp : A -> A -> comparison) (a b : list A) : comparison :=
  match a, b with
  | [], [] => Eq
  | [], _ :: _ => Lt
  | _ :: _, [] => Gt
  | x :: a', y :: b' =>
      match cmp x y with
      | Eq => lex_compare cmp a' b'
      | o => o
      end
  end.

Definition str_compare : str -> str -> comparison := lex_compare N.compare.

Definition leb_of {A} (cmp : A -> A -> comparison) (x y : A) : bool :=
  match cmp x y with Gt => false | _ => true end.

(** [sorted]: a stable sort; [le x y] says that [y < x] is false. *)
Fixpoint insert_sorted {A} (le : A -> A -> bool) (x : A) (l : list A) : list A :=
  match l with
  | [] => [x]
  | y :: t => if le x y then x :: l else y :: insert_sorted le x t
  end.

Definition sorted {A} (le : A -> A -> bool) (l : list A) : list A :=
  foldr (insert_sorted le) [] l.

(** ** [_sanitize_for_json] *)

Definition _sanitize_for_json (content : str) : str :=
  match content with
  | [] => []
  | _ :: _ =>
      let content := replace [NUL] [] content in
      let content := replace [CR] [LF] (replace [CR; LF] [LF] content) in
      if endswith content [LF] then content else content ++ [LF]
  end.

(** ** Exceptions, warnings and the disk *)

(** The exceptions that opening, listing, reading and decoding can raise, and
    those of [relative_to], of indexing and of [in]; all of them are
    subclasses of [Exception]. *)
Inductive exn :=
  | UnicodeDecodeError
  | FileNotFoundError
  | PermissionError
  | NotADirectoryError
  | OSError
  | ValueError
  | TypeError
  | IndexError.

Inductive result (A : Type) :=
  | Return (a : A)
  | Raise (e : exn).
Arguments Return {A} a.
Arguments Raise {A} e.

(** The classes named by the [except] clauses of the program; a bare
    [except] catches [anything]. *)
Definition is_UnicodeDecodeError (e : exn) : bool :=
  match e with UnicodeDecodeError => true | _ => false end.

Definition is_FileNotFoundError (e : exn) : bool :=
  match e with FileNotFoundError => true | _ => false end.

Definition is_Exception (e : exn) : bool := true.

Definition anything (e : exn) : bool := true.

Abbreviation Path := (list (list N)) (only parsing).

(** [Path.name]. *)
Definition path_name (p : Path) : str := default [] (last p).

(** What [print(..., file=sys.stderr)] wrote, one constructor per message. *)
Inductive warning :=
  | IgnoreFileNotFound (ignore_file : Path)
  | IgnoreFileError (e : exn)
  | NoPermission (path : Path)
  | CouldNotRead (file_path : Path)
  | ErrorReading (file_path : Path) (e : exn).

(** A computation that may print warnings before it returns or raises. *)
Definition io (A : Type) : Type := result A * list warning.

#[global] Instance io_ret : MRet io := λ A a, (Return a, []).

#[global] Instance io_bind : MBind io := λ A B k m,
  match m with
  | (Return a, w) => let '(r, w') := k a in (r, w ++ w')
  | (Raise e, w) => (Raise e, w)
  end.

Definition io_of {A} (r : result A) : io A := (r, []).

Definition warn (w : warning) : io unit := (Return tt, [w]).

(** The [except] clauses of a [try], each a class and a handler: the first
    clause whose class the exception belongs to handles it. *)
Fixpoint except {A} (clauses : list ((exn → bool) * (exn → io A))) (e : exn)
    : io A :=
  match clauses with
  | [] => io_of (Raise e)
  | (handles, handler) :: rest =>
      if handles e then handler e else except rest e
  end.

Definition try_except {A} (body : io A)
    (clauses : list ((exn → bool) * (exn → io A))) : io A :=
  match body with
  | (Return a, w) => (Return a, w)
  | (Raise e, w) => let '(r, w') := except clauses e in (r, w ++ w')
  end.

Inductive encoding := utf_8 | latin_1.

(** The disk: what opening and reading a path gives. *)
Definition disk := Path -> result (list Byte.byte).

(** The behaviour of [Path.read_text]. *)
Definition reader := Path -> encoding -> result str.

Definition continuation (b : N) : bool := (128 <=? b) && (b <=? 191).

(** The strict UTF-8 codec: shortest forms only, no surrogates, nothing
    above U+10FFFF. [None] is a [UnicodeDecodeError]. *)
Fixpoint utf8_decode (bs : list N) : option str :=
  match bs with
  | [] => Some []
  | b0 :: t0 =>
      if b0 <? 128 then cons b0 <$> utf8_decode t0
      else if (194 <=? b0) && (b0 <=? 223) then
        match t0 with
        | b1 :: t1 =>
            if continuation b1
            then cons ((b0 - 192) * 64 + (b1 - 128)) <$> utf8_decode t1
            else None
        | _ => None
        end
      else if (224 <=? b0) && (b0 <=? 239) then
        match t0 with
        | b1 :: b2 :: t2 =>
            if continuation b1 && continuation b2
               && (negb (b0 =? 224) || (160 <=? b1))
               && (negb (b0 =? 237) || (b1 <=? 159))
            then cons ((b0 - 224) * 4096 + (b1 - 128) * 64 + (b2 - 128))
                   <$> utf8_decode t2
            else None
        | _ => None
        end
      else if (240 <=? b0) && (b0 <=? 244) then
        match t0 with
        | b1 :: b2 :: b3 :: t3 =>
            if continuation b1 && continuation b2 && continuation b3
               && (negb (b0 =? 240) || (144 <=? b1))
               && (negb (b0 =? 244) || (b1 <=? 143))
            then cons ((b0 - 240) * 262144 + (b1 - 128) * 4096
                       + (b2 - 128) * 64 + (b3 - 128))
                   <$> utf8_decode t3
            else None
        | _ => None
        end
      else None
  end.

(** Latin-1 maps every byte to the code point of the same value. *)
Definition latin1_decode (bs : list N) : str := bs.

Definition decode (enc : encoding) (bs : list Byte.byte) : result str :=
  match enc with
  | utf_8 =>
      match utf8_decode (map Byte.to_N bs) with
      | Some s => Return s
      | None => Raise UnicodeDecodeError
      end
  | latin_1 => Return (latin1_decode (map Byte.to_N bs))
  end.

(** Text mode with the default [newline=None] translates line endings. *)
Definition universal_newlines (s : str) : str :=
  replace [CR] [LF] (replace [CR; LF] [LF] s).

(** [Path.read_text(encoding=...)] and [open(..., 'r', encoding=...)]. *)
Definition read_text (d : disk) : reader := fun p enc =>
  match d p with
  | Raise e => Raise e
  | Return bs =>
      match decode enc bs with
      | Raise e => Raise e
      | Return s => Return (universal_newlines s)
      end
  end.

(** The lines a text file yields when iterated: each keeps its ['\n']. *)
Fixpoint file_lines (s : str) : list str :=
  match s with
  | [] => []
  | c :: t =>
      if c =? LF then [c] :: file_lines t
      else match file_lines t with
           | [] => [[c]]
           | l :: ls => (c :: l) :: ls
           end
  end.

(** ** The fragment of [re] that [_should_ignore] uses *)

(** The characters [re.escape] puts a backslash before. *)
Definition re_special_chars : str :=
  Eval vm_compute in py "()[]{}?*+-|^$\.&~# " ++ [9; 10; 13; 11; 12].

Definition re_special (c : char) : bool := contains c re_special_chars.

Definition re_escape (pattern : str) : str :=
  flat_map (fun c => if re_special c then [BACKSLASH; c] else [c]) pattern.

(** Characters with a meaning of their own when they are not escaped. *)
Definition re_meta_chars : str := Eval vm_compute in py "()[]{}?*+|^$\.".

Definition re_meta (c : char) : bool := contains c re_meta_chars.

Inductive simple :=
  | SChr (c : char)
  | SDot.

Inductive atom :=
  | ABol
  | AEol
  | AOne (a : simple)
  | AStar (a : simple).

Inductive parse_state :=
  | Fresh
  | Pending (a : simple)
  | Escaped.

Definition flush (st : parse_state) : list atom :=
  match st with
  | Pending a => [AOne a]
  | _ => []
  end.

(** Compiles a pattern made of literal characters, escaped special
    characters, [.], [^], [$] and [*] after a one-character item. [None]
    is everything else: a pattern that [re] rejects or that uses a
    construct outside this fragment. *)
Fixpoint re_parse (st : parse_state) (p : str) : option (list atom) :=
  match p with
  | [] =>
      match st with
      | Escaped => None
      | _ => Some (flush st)
      end
  | c :: t =>
      match st with
      | Escaped => if re_special c then re_parse (Pending (SChr c)) t else None
      | _ =>
          if c =? STAR then
            match st with
            | Pending a => cons (AStar a) <$> re_parse Fresh t
            | _ => None
            end
          else if c =? BACKSLASH then app (flush st) <$> re_parse Escaped t
          else if c =? CARET then app (flush st ++ [ABol]) <$> re_parse Fresh t
          else if c =? DOLLAR then app (flush st ++ [AEol]) <$> re_parse Fresh t
          else if c =? DOT then app (flush st) <$> re_parse (Pending SDot) t
          else if re_meta c then None
          else app (flush st) <$> re_parse (Pending (SChr c)) t
      end
  end.

Definition re_compile (pattern : str) : option (list atom) := re_parse Fresh pattern.

(** Without flags, [.] matches anything but a newline. *)
Definition simple_matches (a : simple) (c : char) : bool :=
  match a with
  | SChr x => c =? x
  | SDot => negb (c =? LF)
  end.

(** Without flags, [$] matches at the end and before a final newline. *)
Definition at_end (s : str) : bool :=
  match s with
  | [] => true
  | [c] => c =? LF
  | _ => false
  end.

(** Does a prefix of [s] match [atoms]? [at_start] holds while nothing has
    been consumed. *)
Fixpoint match_here (atoms : list atom) (at_start : bool) (s : str) : bool :=
  match atoms with
  | [] => true
  | ABol :: rest => at_start && match_here rest at_start s
  | AEol :: rest => at_end s && match_here rest at_start s
  | AOne a :: rest =>
      match s with
      | c :: t => simple_matches a c && match_here rest false t
      | [] => false
      end
  | AStar a :: rest =>
      (fix star (at_start : bool) (s : str) : bool :=
         match_here rest at_start s
         || match s with
            | c :: t => simple_matches a c && star false t
            | [] => false
            end) at_start s
  end.

(** [re.match(pattern, string)]: [Some true] for a match object,
    [Some false] for [None]. *)
Definition re_match (pattern string : str) : option bool :=
  match re_compile pattern with
  | Some atoms => Some (match_here atoms true string)
  | None => None
  end.

(** ** [_should_ignore] *)

Definition has_wildcard (pattern : str) : bool :=
  contains STAR pattern || contains QUESTION pattern.

Definition glob_to_regex (pattern : str) : str :=
  let regex_pattern := re_escape pattern in
  replace (py "\?") (py ".") (replace (py "\*") (py ".*") regex_pattern).

(** One round of the loop over [ignore_patterns]: [true] is [return True],
    [false] goes on to the next pattern. *)
Definition pattern_hits (name : str) (pattern : str) : bool :=
  let pattern := strip pattern in
  if bool_decide (pattern = []) || startswith pattern [HASH] then false
  else if has_wildcard pattern then
    match re_match ([CARET] ++ glob_to_regex pattern ++ [DOLLAR]) name with
    | Some true => true
    | _ => false
    end
  else str_eqb name pattern.

Definition _should_ignore (file_path : Path) (ignore_patterns : gset str) : bool :=
  if startswith (path_name file_path) [DOT] then true
  else existsb (pattern_hits (path_name file_path)) (elements ignore_patterns).

(** ** [_load_ignore_patterns] *)

(** [ignore_file] is [None] for a missing or empty argument. *)
Definition _load_ignore_patterns (d : disk) (ignore_file : option Path)
    : io (gset str) :=
  match ignore_file with
  | None => mret ∅
  | Some file =>
      try_except
        (text ← io_of (read_text d file utf_8);
         mret (list_to_set
                 (map strip
                    (filter (λ line, strip line ≠ []) (file_lines text)))))
        [ (is_FileNotFoundError,
           λ _, warn (IgnoreFileNotFound file);; mret ∅);
          (is_Exception,
           λ e, warn (IgnoreFileError e);; mret ∅) ]
  end.

(** ** [_collect_files] *)

(** What a path is on disk: [NoAccess] is a directory whose listing raises
    [PermissionError], [Special] is neither a regular file nor a directory.
    Symbolic links are outside the model. *)
Inductive entry :=
  | RegularFile
  | Directory (entries : list (str * entry))
  | NoAccess
  | Special.


Definition dict_get {V} (k : str) (d : list (str * V)) : option V :=
  snd <$> find (fun kv => str_eqb kv.1 k) d.

Definition dict_has {V} (k : str) (d : list (str * V)) : bool :=
  bool_decide (is_Some (dict_get k d)).

Definition extensions : list (str * list str) :=
  [ (py "python", [py ".py"]);
    (py "javascript", [py ".js"; py ".jsx"; py ".ts"; py ".tsx"]);
    (py "java", [py ".java"]);
    (py "cpp", [py ".cpp"; py ".cc"; py ".cxx"; py ".hpp"; py ".hh"; py ".h"]);
    (py "c", [py ".c"; py ".h"]);
    (py "go", [py ".go"]);
    (py "rust", [py ".rs"]);
    (py "ruby", [py ".rb"]);
    (py "php", [py ".php"]);
    (py "html", [py ".html"; py ".htm"]);
    (py "css", [py ".css"]);
    (py "markdown", [py ".md"; py ".markdown"]) ].

(** [s.rfind(c)]; [None] is [-1]. *)
Fixpoint rfind (c : char) (s : str) : option nat :=
  match s with
  | [] => None
  | x :: t =>
      match rfind c t with
      | Some i => Some (S i)
      | None => if x =? c then Some O else None
      end
  end.

(** [Path.suffix]. *)
Definition suffix (p : Path) : str :=
  let name := path_name p in
  match rfind DOT name with
  | Some i =>
      if bool_decide (0 < i < length name - 1)%nat then drop i name else []
  | None => []
  end.

(** [str.lower] restricted to ASCII, for running examples. *)
Definition ascii_lower (s : str) : str :=
  map (fun c => if (65 <=? c) && (c <=? 90) then c + 32 else c) s.

Section Collector.

(** [str.lower]: the Unicode case tables are not part of the program. *)
Variable lower : str -> str.

(** The language test of the loop body: [true] is [continue]. *)
Definition language_excludes (language_filter : option str) (item : Path) : bool :=
  match language_filter with
  | None | Some [] => false
  | Some language =>
      match dict_get (lower language) extensions with
      | Some exts => negb (bool_decide (lower (suffix item) ∈ exts))
      | None => false
      end
  end.

(** The generator, as the list of what it yields. *)
Fixpoint _collect_files (path : Path) (disk_entry : entry) (recursive : bool)
    (ignore_patterns : gset str) (language_filter : option str)
    : io (list Path) :=
  match disk_entry with
  | RegularFile =>
      mret (if _should_ignore path ignore_patterns then [] else [path])
  | Special => io_of (Raise NotADirectoryError)
  | NoAccess => warn (NoPermission path);; mret []
  | Directory entries =>
      (fix loop (items : list (str * entry)) : io (list Path) :=
         match items with
         | [] => mret []
         | (name, child) :: rest =>
             let item := path ++ [name] in
             yielded ←
               (if _should_ignore item ignore_patterns then mret []
                else
                  match child with
                  | RegularFile =>
                      if language_excludes language_filter item
                      then mret []
                      else mret [item]
                  | Directory _ | NoAccess =>
                      if recursive
                      then _collect_files item child recursive ignore_patterns
                             language_filter
                      else mret []
                  | Special => mret []
                  end);
             later ← loop rest;
             mret (yielded ++ later)
         end) entries
  end.

(** What one entry [name] of the listing of [path] contributes: the
    body of the loop over [path.iterdir()]. *)
Definition yielded (path : Path) (recursive : bool) (ignore_patterns : gset str)
    (language_filter : option str) (name : str) (child : entry)
    : io (list Path) :=
  let item := path ++ [name] in
  if _should_ignore item ignore_patterns then mret []
  else
    match child with
    | RegularFile =>
        if language_excludes language_filter item
        then mret []
        else mret [item]
    | Directory _ | NoAccess =>
        if recursive
        then _collect_files item child recursive ignore_patterns
               language_filter
        else mret []
    | Special => mret []
    end.

End Collector.

(** ** [_build_directory_layout] *)

(** A value of the tree dictionary: [None] for a file, a dictionary for a
    directory. *)
Inductive node :=
  | File
  | Dir (children : list (str * node)).

Abbreviation tree := (list (list N * node)) (only parsing).

(** [d[k] = v] on a key that is present. *)
Fixpoint dict_set {V} (k : str) (v : V) (d : list (str * V)) : list (str * V) :=
  match d with
  | [] => []
  | (k', v') :: rest =>
      if str_eqb k' k then (k', v) :: rest else (k', v') :: dict_set k v rest
  end.

(** [Path.relative_to], on the parts. *)
Fixpoint relative_to (p root : Path) : result Path :=
  match root, p with
  | [], _ => Return p
  | r :: root', x :: p' =>
      if str_eqb x r then relative_to p' root' else Raise ValueError
  | _ :: _, [] => Raise ValueError
  end.

(** [str(path)] of a relative path. *)
Definition path_str (p : Path) : str :=
  match p with
  | [] => py "."
  | _ :: _ => join [SLASH] p
  end.

(** Paths compare by their parts. *)
Definition path_le : Path -> Path -> bool := leb_of (lex_compare str_compare).

(** The body of the loop over [sorted(files)], after [relative_to]: walks
    [parts[:-1]] from [current], creating directories, then marks
    [parts[-1]] as a file. *)
Fixpoint add_parts (parts : list str) (current : tree) : result tree :=
  match parts with
  | [] => Raise IndexError
  | [filename] =>
      Return (if dict_has filename current then current
              else current ++ [(filename, File)])
  | part :: rest =>
      match dict_get part current with
      | None =>
          match add_parts rest [] with
          | Return sub => Return (current ++ [(part, Dir sub)])
          | Raise e => Raise e
          end
      | Some (Dir sub) =>
          match add_parts rest sub with
          | Return sub' => Return (dict_set part (Dir sub') current)
          | Raise e => Raise e
          end
      | Some File => Raise TypeError
      end
  end.

Fixpoint build_tree (root_path : Path) (files : list Path) (current : tree)
    : result tree :=
  match files with
  | [] => Return current
  | file_path :: rest =>
      match relative_to file_path root_path with
      | Raise e => Raise e
      | Return rel_path =>
          match add_parts rel_path current with
          | Raise e => Raise e
          | Return current' => build_tree root_path rest current'
          end
      end
  end.

Definition is_file (n : node) : bool :=
  match n with File => true | Dir _ => false end.

Definition bool_compare (a b : bool) : comparison :=
  match a, b with
  | false, true => Lt
  | true, false => Gt
  | _, _ => Eq
  end.

(** [key=lambda x: (x[1] is not None, x[0])]. *)
Definition item_compare (x y : str * node) : comparison :=
  match bool_compare (negb (is_file x.2)) (negb (is_file y.2)) with
  | Eq => str_compare x.1 y.1
  | o => o
  end.

Definition corner : str := [9492; 9472; 9472; 32].
Definition tee : str := [9500; 9472; 9472; 32].
Definition bar : str := [9474; 32; 32; 32].
Definition blank : str := [32; 32; 32; 32].

Fixpoint node_height (n : node) : nat :=
  match n with
  | File => O
  | Dir children =>
      S (foldr Nat.max O (map (fun '(_, sub) => node_height sub) children))
  end.

Definition tree_height (t : tree) : nat := node_height (Dir t).

(** [fuel] bounds the number of nested calls; [tree_height] is enough. An
    empty [node] has no items, which is the early [return lines]. *)
Fixpoint build_tree_lines_upto (fuel : nat) (node : tree) (prefix : str)
    (is_last : bool) (depth : nat) : list str :=
  match fuel with
  | O => []
  | S fuel =>
      let items := sorted (leb_of item_compare) node in
      concat
        (imap
           (fun i '(name, subtree) =>
              let is_last_item := bool_decide (i = (length items - 1)%nat) in
              let connector :=
                if bool_decide (depth = O) then []
                else if is_last then corner else tee in
              let line := prefix ++ connector ++ name in
              match subtree with
              | File => [line]
              | Dir sub =>
                  let next_prefix :=
                    if bool_decide (depth = O) then []
                    else prefix ++ (if is_last then blank else bar) in
                  (line ++ [SLASH])
                  :: build_tree_lines_upto fuel sub next_prefix is_last_item
                       (depth + 1)
              end)
           items)
  end.

Definition build_tree_lines (node : tree) (prefix : str) (is_last : bool)
    (depth : nat) : list str :=
  build_tree_lines_upto (tree_height node) node prefix is_last depth.

Definition _build_directory_layout (root_path : Path) (files : list Path)
    : result str :=
  match files with
  | [] => Return (py "Directory layout: No files found." ++ [LF; LF])
  | _ :: _ =>
      match build_tree root_path (sorted path_le files) [] with
      | Raise e => Raise e
      | Return tree =>
          let lines :=
            (path_name root_path ++ [SLASH]) :: build_tree_lines tree [] true O in
          Return (join [LF] lines ++ [LF; LF])
      end
  end.

(** ** [_read_file_safely] *)

Definition _read_file_safely (read_text : reader) (file_path : Path)
    : io (option str) :=
  try_except
    (content ← io_of (read_text file_path utf_8); mret (Some content))
    [ (is_UnicodeDecodeError,
       λ _,
         try_except
           (content ← io_of (read_text file_path latin_1); mret (Some content))
           [ (anything, λ _, warn (CouldNotRead file_path);; mret None) ]);
      (is_Exception,
       λ e, warn (ErrorReading file_path e);; mret None) ].

(** ** [_build_prompt] *)

Definition start_marker (rel_path : Path) : str :=
  [LF] ++ py "+++ " ++ path_str rel_path ++ py " START +++" ++ [LF].

Definition end_marker (rel_path : Path) : str :=
  [LF] ++ py "+++ " ++ path_str rel_path ++ py " END +++" ++ [LF].

(** The loop that fills [file_contents]. *)
Fixpoint file_contents (read_text : reader) (root_path : Path) (files : list Path)
    : io (list str) :=
  match files with
  | [] => mret []
  | file_path :: rest =>
      content ← _read_file_safely read_text file_path;
      match content with
      | None => file_contents read_text root_path rest
      | Some content =>
          let sanitized_content := _sanitize_for_json content in
          rel_path ← io_of (relative_to file_path root_path);
          later ← file_contents read_text root_path rest;
          mret (start_marker rel_path :: sanitized_content
                :: end_marker rel_path :: later)
      end
  end.

(** The layout is also printed to standard output; that is not modelled. *)
Definition _build_prompt (read_text : reader) (root_path : Path)
    (files : list Path) : io str :=
  dir_layout ← io_of (_build_directory_layout root_path files);
  file_contents ← file_contents read_text root_path (sorted path_le files);
  mret (dir_layout ++ concat file_contents).

(** ** The command-line program *)

(** [item.is_file()] and [Path.parent]; the latter for a path that is not a
    bare anchor, which is what [review] applies it to. *)
Definition is_regular (e : entry) : bool :=
  match e with RegularFile => true | _ => false end.

Definition parent (p : Path) : Path := removelast p.

(** A decoded JSON document, which is also what [json.dumps] takes:
    [None], [bool], [int], [float], [str], [list], and [dict] as the list of
    its items. *)
Inductive json :=
  | JNone
  | JBool (b : bool)
  | JInt (n : Z)
  | JFloat (x : spec_float)
  | JStr (s : str)
  | JList (items : list json)
  | JDict (items : list (str * json)).

(** [bool(v)], the test of [if v:]. *)
Definition truthy (v : json) : bool :=
  match v with
  | JNone => false
  | JBool b => b
  | JInt n => negb (n =? 0)%Z
  | JFloat (S754_zero _) => false
  | JFloat _ => true
  | JStr [] | JList [] | JDict [] => false
  | JStr _ | JList _ | JDict _ => true
  end.

(** The answer of the server, as far as the program looks at it. *)
Record Response := {
  status_code : N;
  text : str
}.

(** What can be raised in this part: the exceptions of the functions above,
    [KeyError], [requests.exceptions.RequestException] with its [response]
    attribute, and two classes that are not subclasses of [Exception]. *)
Inductive raised :=
  | Exn (e : exn)
  | KeyError
  | RequestException (response : option Response)
  | KeyboardInterrupt
  | SystemExit (code : N).

Inductive outcome (A : Type) :=
  | Returns (a : A)
  | Raises (r : raised).
Arguments Returns {A} a.
Arguments Raises {A} r.

Definition is_RequestException (r : raised) : bool :=
  match r with RequestException _ => true | _ => false end.

Definition is_KeyError (r : raised) : bool :=
  match r with KeyError => true | _ => false end.

Definition is_KeyboardInterrupt (r : raised) : bool :=
  match r with KeyboardInterrupt => true | _ => false end.

Definition subclass_of_Exception (r : raised) : bool :=
  match r with KeyboardInterrupt | SystemExit _ => false | _ => true end.

(** What the program prints, one constructor per [print]; [Warned] is a
    warning of the functions above. The layout that [_build_prompt] prints
    is left out, as it is there. *)
Inductive message :=
  | Warned (w : warning)
  | ApiKeyNotSet
  | ApiKeyHint
  | SystemPromptNotFound (script_dir : Path)
  | UsingDefaultPrompt
  | SystemPromptError (e : raised)
  | PathDoesNotExist (target_path : Path)
  | NoFilesFound
  | FoundFiles (n : nat)
  | CallingApi
  | ApiError (e : raised)
  | ApiResponseText (text : str)
  | UnexpectedFormat
  | RuleAbove
  | ResultsTitle
  | RuleBelow
  | Printed (response : json)
  | Interrupted
  | UnexpectedError (e : raised).

(** A computation of this part: what it printed, and how it ended. *)
Definition run (A : Type) : Type := outcome A * list message.

#[global] Instance run_ret : MRet run := λ A a, (Returns a, []).

#[global] Instance run_bind : MBind run := λ A B k m,
  match m with
  | (Returns a, w) => let '(r, w') := k a in (r, w ++ w')
  | (Raises e, w) => (Raises e, w)
  end.

Definition run_of {A} (r : outcome A) : run A := (r, []).

Definition say (m : message) : run unit := (Returns tt, [m]).

(** A call of one of the functions above. *)
Definition call {A} (m : io A) : run A :=
  (match m.1 with Return a => Returns a | Raise e => Raises (Exn e) end,
   Warned <$> m.2).

(** [sys.exit(code)]. *)
Definition sys_exit {A} (code : N) : run A := run_of (Raises (SystemExit code)).

Fixpoint handle {A} (clauses : list ((raised → bool) * (raised → run A)))
    (r : raised) : run A :=
  match clauses with
  | [] => run_of (Raises r)
  | (handles, handler) :: rest =>
      if handles r then handler r else handle rest r
  end.

Definition try_run {A} (body : run A)
    (clauses : list ((raised → bool) * (raised → run A))) : run A :=
  match body with
  | (Returns a, w) => (Returns a, w)
  | (Raises r, w) => let '(o, w') := handle clauses r in (o, w ++ w')
  end.

(** [v[k]] for a string key or an integer index that is not negative. *)
Inductive subscript :=
  | Key (k : str)
  | Index (i : nat).

Definition getitem (v : json) (k : subscript) : outcome json :=
  match v, k with
  | JDict items, Key k =>
      match dict_get k items with
      | Some x => Returns x
      | None => Raises KeyError
      end
  | JDict _, Index _ => Raises KeyError
  | JList items, Index i =>
      match items !! i with
      | Some x => Returns x
      | None => Raises (Exn IndexError)
      end
  | JStr s, Index i =>
      match s !! i with
      | Some c => Returns (JStr [c])
      | None => Raises (Exn IndexError)
      end
  | _, _ => Raises (Exn TypeError)
  end.

(** [Response.ok], which is also [bool(response)], and
    [Response.raise_for_status]. *)
Definition ok (response : Response) : bool :=
  negb ((400 <=? status_code response) && (status_code response <? 600)).

Definition raise_for_status (response : Response) : outcome unit :=
  if ok response then Returns tt else Raises (RequestException (Some response)).

(** The arguments of [requests.post]; [data] is the payload, whose
    serialisation by [json.dumps] is left to the server. *)
Record Request := {
  url : str;
  headers : list (str * str);
  data : json;
  timeout : N
}.

Record CodeReviewer := {
  api_key : str;
  system_prompt : str
}.

(** The namespace that [parse_arguments] returns; an option that is absent
    or empty is [None]. *)
Record Namespace := {
  target : Path;
  recursive : bool;
  language : option str;
  ignore_file : option Path
}.

(** The float [0.1]. *)
Definition tenth : spec_float := S754_finite false 7205759403792794 (-56).

Definition default_system_prompt : str :=
  py "You are an expert code reviewer. Analyze the provided code structure and files."
  ++ [LF]
  ++ py "Provide specific, actionable feedback on code quality, potential bugs, security issues,"
  ++ [LF]
  ++ py "and improvements. Focus on practical recommendations.".

Definition _get_api_key (environ : gmap str str) : run str :=
  match environ !! py "DEEPSEEK_API_KEY" with
  | Some (c :: key) => mret (c :: key)
  | _ => say ApiKeyNotSet;; say ApiKeyHint;; sys_exit 1
  end.

Section Program.

(** The world of a run: [str.lower], the bytes of the files, what lies at
    a path ([None] when nothing does), the environment, the directory of
    the script, the server behind [requests.post] and the decoder behind
    [response.json()]. *)
Variable lower : str → str.
Variable d : disk.
Variable fs : Path → option entry.
Variable environ : gmap str str.
Variable script_dir : Path.
Variable post : Request → outcome Response.
Variable json_of : Response → outcome json.

Definition _load_system_prompt : run str :=
  let prompt_file := script_dir ++ [py "system_prompt.txt"] in
  match fs prompt_file with
  | None =>
      say (SystemPromptNotFound script_dir);;
      say UsingDefaultPrompt;;
      mret default_system_prompt
  | Some _ =>
      try_run
        (content ← call (io_of (read_text d prompt_file utf_8));
         mret (strip content))
        [ (subclass_of_Exception,
           λ e, say (SystemPromptError e);; sys_exit 1) ]
  end.

Definition __init__ : run CodeReviewer :=
  api_key ← _get_api_key environ;
  system_prompt ← _load_system_prompt;
  mret {| api_key := api_key; system_prompt := system_prompt |}.

Definition _call_deepseek_api (self : CodeReviewer) (prompt : str) : run json :=
  let url := py "https://api.deepseek.com/v1/chat/completions" in
  let headers :=
    [ (py "Authorization", py "Bearer " ++ api_key self);
      (py "Content-Type", py "application/json") ] in
  let payload :=
    JDict
      [ (py "model", JStr (py "deepseek-chat"));
        (py "messages",
         JList
           [ JDict [ (py "role", JStr (py "system"));
                     (py "content", JStr (system_prompt self)) ];
             JDict [ (py "role", JStr (py "user"));
                     (py "content", JStr prompt) ] ]);
        (py "temperature", JFloat tenth);
        (py "max_tokens", JInt 4000);
        (py "stream", JBool false) ] in
  try_run
    (say CallingApi;;
     response ← run_of (post {| url := url; headers := headers;
                                data := payload; timeout := 60 |});
     run_of (raise_for_status response);;
     result ← run_of (json_of response);
     choices ← run_of (getitem result (Key (py "choices")));
     choice ← run_of (getitem choices (Index 0));
     message ← run_of (getitem choice (Key (py "message")));
     content ← run_of (getitem message (Key (py "content")));
     mret content)
    [ (is_RequestException,
       λ e,
         say (ApiError e);;
         (match e with
          | RequestException (Some response) =>
              if ok response then say (ApiResponseText (text response))
              else mret tt
          | _ => mret tt
          end : run unit);;
         mret JNone);
      (is_KeyError, λ _, say UnexpectedFormat;; mret JNone) ].

Definition review (self : CodeReviewer) (args : Namespace) : run bool :=
  let target_path := target args in
  match fs target_path with
  | None => say (PathDoesNotExist target_path);; mret false
  | Some disk_entry =>
      let is_file := is_regular disk_entry in
      ignore_patterns ← call (_load_ignore_patterns d (ignore_file args));
      files ← call (_collect_files lower target_path disk_entry (recursive args)
                      ignore_patterns (language args));
      match files with
      | [] => say NoFilesFound;; mret true
      | _ :: _ =>
          say (FoundFiles (length files));;
          let root_path := if is_file then parent target_path else target_path in
          prompt ← call (_build_prompt (read_text d) root_path files);
          response ← _call_deepseek_api self prompt;
          if truthy response then
            say RuleAbove;; say ResultsTitle;; say RuleBelow;;
            say (Printed response);;
            mret true
          else mret false
      end
  end.

(** [parse_arguments] is [argparse] at work; how it ends is a parameter. *)
Definition main (parse_arguments : outcome Namespace) : run unit :=
  try_run
    (args ← run_of parse_arguments;
     reviewer ← __init__;
     success ← review reviewer args;
     sys_exit (if success : bool then 0 else 1))
    [ (is_KeyboardInterrupt, λ _, say Interrupted;; sys_exit 130);
      (subclass_of_Exception, λ e, say (UnexpectedError e);; sys_exit 1) ].

End Program.

(** ** Reference definitions, written from the specification *)

(** "Normalize line endings ([\r\n] and bare [\r] to [\n])". *)
Fixpoint normalize_newlines (s : str) : str :=
  match s with
  | [] => []
  | c :: t =>
      if c =? CR then
        LF :: match t with
              | d :: t' =>
                  if d =? LF then normalize_newlines t' else normalize_newlines t
              | [] => []
              end
      else c :: normalize_newlines t
  end.

(** "Strip NUL bytes; normalize line endings". *)
Definition cleaned (content : str) : str :=
  normalize_newlines (filter (λ c, c ≠ NUL) content).

(** A name that is not hidden. *)
Definition visible (part : str) : Prop := startswith part [DOT] = false.

(** [f] lies at or below [path], no part below [path] is hidden, and
    neither is the name of [f]. *)
Definition collected_ok (path : Path) (f : Path) : Prop :=
  ∃ rel, f = path ++ rel ∧ Forall visible rel ∧ visible (path_name f).

(** The glob of the specification, anchored at both ends: [*] matches zero
    or more characters, [?] exactly one, any other character itself. *)
Fixpoint glob_match (pattern name : str) : bool :=
  match pattern with
  | [] => bool_decide (name = [])
  | p :: pattern' =>
      if p =? STAR then
        (fix star (name : str) : bool :=
           glob_match pattern' name
           || match name with
              | _ :: t => star t
              | [] => false
              end) name
      else
        match name with
        | c :: t => ((p =? QUESTION) || (c =? p)) && glob_match pattern' t
        | [] => false
        end
  end.

(** What [glob_to_regex] makes of one character of the pattern, and the
    item of the compiled pattern that comes of it. *)
Definition translate (c : char) : str :=
  if c =? STAR then [DOT; STAR]
  else if c =? QUESTION then [DOT]
  else if re_special c then [BACKSLASH; c]
  else [c].

Definition atom_of (c : char) : atom :=
  if c =? STAR then AStar SDot
  else if c =? QUESTION then AOne SDot
  else AOne (SChr c).

(** The state of the translation after the first [replace]. *)
Definition escape_star (c : char) : str :=
  if c =? STAR then [DOT; STAR]
  else if re_special c then [BACKSLASH; c] else [c].

(** A parser state in which a new item may start. *)
Definition open_state (st : parse_state) : Prop := st ≠ Escaped.

(** The bytes of a text whose code points are all below 256. *)
Definition bytes_of (s : str) : list Byte.byte :=
  omap Byte.of_N s.

(** The entries of a tree in the order in which they are drawn, each
    with its depth and whether it is a directory. *)
Fixpoint entries_upto (fuel : nat) (node : tree) (depth : nat)
    : list (nat * str * bool) :=
  match fuel with
  | O => []
  | S fuel =>
      flat_map
        (fun '(name, subtree) =>
           match subtree with
           | File => [(depth, name, false)]
           | Dir sub => (depth, name, true) :: entries_upto fuel sub (depth + 1)
           end)
        (sorted (leb_of item_compare) node)
  end.

Definition entries (node : tree) : list (nat * str * bool) :=
  entries_upto (tree_height node) node O.

Definition segment (s : str) : Prop := s = bar ∨ s = blank.

Definition prefix_at (depth : nat) (prefix : str) : Prop :=
  match depth with
  | O => prefix = []
  | S k => ∃ segments,
      length segments = k ∧ Forall segment segments ∧ prefix = concat segments
  end.

Definition drawn_as (e : nat * str * bool) (line : str) : Prop :=
  let '(depth, name, is_dir) := e in
  let label := name ++ (if is_dir then [SLASH] else []) in
  match depth with
  | O => line = label
  | S _ =>
      ∃ prefix connector,
        prefix_at depth prefix ∧ (connector = corner ∨ connector = tee)
        ∧ line = prefix ++ connector ++ label
  end.

(** The usual way to draw a tree, as the specification words it: the last
    child of a directory gets the corner, every other child the tee, and
    the children of a directory continue with a blank under a last child
    and a bar under any other. *)
Fixpoint convention_lines_upto (fuel : nat) (node : tree)
    (prefix : str) : list str :=
  match fuel with
  | O => []
  | S fuel =>
      let items := sorted (leb_of item_compare) node in
      concat
        (imap
           (fun i '(name, subtree) =>
              let last := bool_decide (i = (length items - 1)%nat) in
              let line := prefix ++ (if last then corner else tee) ++ name in
              match subtree with
              | File => [line]
              | Dir sub =>
                  (line ++ [SLASH])
                  :: convention_lines_upto fuel sub
                       (prefix ++ (if last then blank else bar))
              end)
           items)
  end.

Definition convention_lines (node : tree) : list str :=
  convention_lines_upto (tree_height node) node [].

(** What a three-way comparison must satisfy to be a total order. *)
Record order_laws {A} (cmp : A → A → comparison) : Prop := {
  cmp_eq : ∀ x y, cmp x y = Eq ↔ x = y;
  cmp_antisym : ∀ x y, cmp y x = CompOpp (cmp x y);
  cmp_trans : ∀ x y z, cmp x y = Lt → cmp y z = Lt → cmp x z = Lt
}.

Definition le_of {A} (cmp : A → A → comparison) : relation A :=
  λ x y, leb_of cmp x y = true.

(** [leaf t parts]: following [parts] through the tree dictionary [t] ends
    at a file. *)
Inductive leaf : tree → Path → Prop :=
  | leaf_here t name : dict_get name t = Some File → leaf t [name]
  | leaf_below t name sub rest :
      dict_get name t = Some (Dir sub) → leaf sub rest → leaf t (name :: rest).

(** [dir_at t parts]: following [parts] through [t] ends at a directory. *)
Inductive dir_at : tree → Path → Prop :=
  | dir_here t name sub : dict_get name t = Some (Dir sub) → dir_at t [name]
  | dir_below t name sub rest :
      dict_get name t = Some (Dir sub) → dir_at sub rest → dir_at t (name :: rest).

(** The shape of a collected file list: every file lies strictly below the
    root, and no file lies inside another file. *)
Definition strictly_below (root f : Path) : Prop :=
  ∃ rel, rel ≠ [] ∧ f = root ++ rel.

Definition no_file_inside_a_file (files : list Path) : Prop :=
  ∀ f g rest, f ∈ files → g ∈ files → g = f ++ rest → rest = [].

(** The block of one file in the body of the document; empty when the
    file could not be read. *)
Definition body_block (read_text : reader) (root_path file_path : Path)
    : str :=
  match (_read_file_safely read_text file_path).1 with
  | Return (Some content) =>
      match relative_to file_path root_path with
      | Return rel_path =>
          [LF] ++ py "+++ " ++ path_str rel_path ++ py " START +++" ++ [LF]
          ++ _sanitize_for_json content
          ++ [LF] ++ py "+++ " ++ path_str rel_path ++ py " END +++" ++ [LF]
      | Raise _ => []
      end
  | _ => []
  end.

(** A disk that holds the listed texts; every other path is missing. *)
Definition disk_of (contents : list (Path * str)) : disk :=
  λ p, match find (λ kv, bool_decide (kv.1 = p)) contents with
       | Some kv => Return (bytes_of kv.2)
       | None => Raise FileNotFoundError
       end.

Definition example_root : Path := [py "proj"].

Definition example_files : list Path :=
  [ [py "proj"; py "sub"; py "b.py"]; [py "proj"; py "a.py"] ].

Definition example_disk : disk :=
  disk_of [ ([py "proj"; py "a.py"], py "x");
            ([py "proj"; py "sub"; py "b.py"], py "y") ].

(** Unfolds the operations of [io] down to pairs. *)
Ltac io_unfold :=
  unfold try_except, mbind, io_bind, mret, io_ret, io_of, warn;
  cbn [except].

Ltac list_cases H :=
  repeat (apply elem_of_cons in H as [->|H]);
  try (by apply elem_of_nil in H).

(** ** Definitions for the further properties *)

(** A character that [_sanitize_for_json] has no rule for. *)
Definition plain (c : N) : Prop := c ≠ NUL ∧ c ≠ CR ∧ c ≠ LF.

(** [selects path entries f]: the regular file [f] is reached from the
    listing [entries] of [path] through directories that are not ignored,
    it is not ignored itself, and the language test keeps it. *)
Inductive selects (lower : str → str) (recursive : bool)
    (ignore_patterns : gset str) (language_filter : option str)
    : Path → list (str * entry) → Path → Prop :=
  | selects_file path entries name :
      (name, RegularFile) ∈ entries →
      _should_ignore (path ++ [name]) ignore_patterns = false →
      language_excludes lower language_filter (path ++ [name]) = false →
      selects lower recursive ignore_patterns language_filter
        path entries (path ++ [name])
  | selects_below path entries name children f :
      recursive = true →
      (name, Directory children) ∈ entries →
      _should_ignore (path ++ [name]) ignore_patterns = false →
      selects lower recursive ignore_patterns language_filter
        (path ++ [name]) children f →
      selects lower recursive ignore_patterns language_filter
        path entries f.


(** The same directory tree, with the entries of some directories listed
    in another order. *)
Inductive relisted : entry → entry → Prop :=
  | relisted_same e : relisted e e
  | relisted_order entries entries' :
      entries ≡ₚ entries' → relisted (Directory entries) (Directory entries')
  | relisted_child before name child child' after :
      relisted child child' →
      relisted (Directory (before ++ (name, child) :: after))
        (Directory (before ++ (name, child') :: after))
  | relisted_trans e1 e2 e3 : relisted e1 e2 → relisted e2 e3 → relisted e1 e3.

(** Two traversals that end the same way, with the same files and the
    same warnings up to their order. *)
Definition same_files (r r' : io (list Path)) : Prop :=
  match r, r' with
  | (Return files, ws), (Return files', ws') => files ≡ₚ files' ∧ ws ≡ₚ ws'
  | (Raise e, ws), (Raise e', ws') => e = e' ∧ ws ≡ₚ ws'
  | _, _ => False
  end.

Definition same_kind (e e' : entry) : Prop :=
  match e, e' with
  | RegularFile, RegularFile | NoAccess, NoAccess | Special, Special
  | Directory _, Directory _ => True
  | _, _ => False
  end.

(** The order of the sort key, and the order of the names alone. *)
Definition item_le : relation (str * node) :=
  λ x y, leb_of item_compare x y = true.

Definition name_le : relation (str * node) :=
  λ x y, leb_of str_compare x.1 y.1 = true.

(** [result["choices"][0]["message"]["content"]]. *)
Definition first_content (result : json) : outcome json :=
  match getitem result (Key (py "choices")) with
  | Raises r => Raises r
  | Returns choices =>
      match getitem choices (Index 0) with
      | Raises r => Raises r
      | Returns choice =>
          match getitem choice (Key (py "message")) with
          | Raises r => Raises r
          | Returns message => getitem message (Key (py "content"))
          end
      end
  end.

(** What becomes of an exception raised inside the [try] of
    [_call_deepseek_api], with what has been printed by then. *)
Definition after_raise (r : raised) : run json :=
  match r with
  | RequestException response =>
      (Returns JNone,
       [CallingApi; ApiError r]
       ++ match response with
          | Some response =>
              if ok response then [ApiResponseText (text response)] else []
          | None => []
          end)
  | KeyError => (Returns JNone, [CallingApi; UnexpectedFormat])
  | _ => (Raises r, [CallingApi])
  end.


(** The exit status that an exception leads to in [main]. *)
Definition status_of (r : raised) : N :=
  match r with
  | SystemExit code => code
  | KeyboardInterrupt => 130
  | _ => 1
  end.

(** A small world to run the program in. *)
Definition example_listing : list (str * entry) :=
  [ (py "a.py", RegularFile);
    (py "sub", Directory [(py "b.py", RegularFile)]);
    (py ".git", Directory [(py "config", RegularFile)]) ].

Definition example_fs : Path → option entry :=
  λ p, if bool_decide (p = example_root) then Some (Directory example_listing)
       else if bool_decide (p = [py "proj"; py "a.py"]) then Some RegularFile
       else None.

Definition example_reviewer : CodeReviewer :=
  {| api_key := py "secret"; system_prompt := py "Review this." |}.

Definition example_reply : json :=
  JDict
    [ (py "id", JStr (py "1"));
      (py "choices",
       JList
         [ JDict
             [ (py "index", JInt 0);
               (py "message",
                JDict [ (py "role", JStr (py "assistant"));
                        (py "content", JStr (py "Looks fine.")) ]) ] ]) ].

Definition answers (status : N) : Request → outcome Response :=
  λ _, Returns {| status_code := status; text := py "body" |}.

Definition decodes_to (v : json) : Response → outcome json := λ _, Returns v.

Definition directory_args : Namespace :=
  {| target := example_root; recursive := true;
     language := Some (py "python"); ignore_file := None |}.


(** Unfolds the operations of [run] down to pairs. *)
Ltac run_unfold :=
  unfold try_run, mbind, run_bind, mret, run_ret, run_of, say, sys_exit, call;
  cbn [handle fst snd].

Ltac run_simpl :=
  cbn -[_build_prompt _call_deepseek_api _collect_files _load_ignore_patterns
        read_text py].

Ltac raised_case r :=
  destruct r as [| |[?resp|]| |]; cbn; try done;
  try (destruct (ok resp); done).

(* ================================================================= *)
(** * Theorems *)

(** ** Strings *)

Lemma replace_from_absent o old new s :
  o ∉ s → replace_from (o :: old) new O s = s.
Proof.
  induction s as [|c t IH]; intros Hn; [done|].
  apply not_elem_of_cons in Hn as [Hne Hn]. simpl.
  destruct (N.eqb_spec c o); [congruence|]. simpl. by rewrite IH.
Qed.

Lemma replace_absent o old new s : o ∉ s → replace (o :: old) new s = s.
Proof. apply replace_from_absent. Qed.

Lemma replace_from_elem x old new k s :
  x ∈ replace_from old new k s → x ∈ new ∨ x ∈ s.
Proof.
  revert k. induction s as [|c t IH]; intros k; cbn [replace_from].
  - by right.
  - destruct k as [|k].
    + destruct (startswith (c :: t) old).
      * rewrite elem_of_app. intros [H|H]; [by left|].
        apply IH in H as [H|H]; [by left|right; by constructor].
      * rewrite elem_of_cons. intros [->|H]; [right; by constructor|].
        apply IH in H as [H|H]; [by left|right; by constructor].
    + intros H. apply IH in H as [H|H]; [by left|right; by constructor].
Qed.

Lemma replace_elem x o old new s :
  x ∈ replace (o :: old) new s → x ∈ new ∨ x ∈ s.
Proof. apply replace_from_elem. Qed.

Lemma replace_one c new s :
  replace [c] new s = flat_map (fun x => if x =? c then new else [x]) s.
Proof.
  unfold replace. induction s as [|x t IH]; [done|].
  cbn [replace_from startswith flat_map length Nat.pred].
  rewrite andb_true_r. destruct (x =? c); simpl; by rewrite IH.
Qed.

Lemma replace_one_absent c new s : c ∉ new → c ∉ replace [c] new s.
Proof.
  intros Hn. rewrite replace_one. induction s as [|x t IH]; simpl.
  - apply not_elem_of_nil.
  - rewrite elem_of_app. intros [H|H]; [|done].
    destruct (N.eqb_spec x c); [done|].
    apply list_elem_of_singleton in H. congruence.
Qed.

Lemma replace_nul s : replace [NUL] [] s = filter (λ c, c ≠ NUL) s.
Proof.
  rewrite replace_one. induction s as [|c t IH]; [done|].
  cbn [flat_map]. rewrite IH.
  destruct (N.eqb_spec c NUL) as [->|Hc].
  - by rewrite filter_cons_False by (intros H; by apply H).
  - by rewrite filter_cons_True by done.
Qed.

Lemma replace2_hit a b new t :
  replace [a; b] new (a :: b :: t) = new ++ replace [a; b] new t.
Proof. unfold replace. cbn. by rewrite !N.eqb_refl. Qed.

Lemma replace2_miss a b new c t :
  startswith (c :: t) [a; b] = false →
  replace [a; b] new (c :: t) = c :: replace [a; b] new t.
Proof. unfold replace. cbn [replace_from]. by intros ->. Qed.

Lemma startswith2 c t a b :
  startswith (c :: t) [a; b] = (c =? a) && startswith t [b].
Proof. done. Qed.

Lemma endswith_snoc s c : endswith (s ++ [c]) [c] = true.
Proof. unfold endswith. rewrite rev_app_distr. simpl. by rewrite N.eqb_refl. Qed.

Lemma crlf_then_cr s :
  replace [CR] [LF] (replace [CR; LF] [LF] s) = normalize_newlines s.
Proof.
  rewrite replace_one. unfold replace.
  remember (length s) as n eqn:Hn. revert s Hn.
  induction (lt_wf n) as [n _ IH]. intros s ->.
  destruct s as [|c t]; [done|].
  cbn [replace_from normalize_newlines startswith].
  destruct (N.eqb_spec c CR) as [->|Hc].
  - destruct t as [|d t']; [done|].
    cbn [andb]. destruct (N.eqb_spec d LF) as [->|Hd].
    + cbn. f_equal. eapply IH; [|done]. simpl. lia.
    + cbn [andb flat_map app N.eqb]. simpl (CR =? CR). cbn [app]. f_equal.
      eapply IH; [|done]. simpl; lia.
  - cbn [andb flat_map]. destruct (N.eqb_spec c CR); [done|]. cbn [app]. f_equal.
    eapply IH; [|done]. simpl; lia.
Qed.

Lemma lstrip_suffix s : ∃ pre, s = pre ++ lstrip s.
Proof.
  induction s as [|c t [pre IH]]; [by exists []|]. cbn.
  destruct (isspace c).
  - exists (c :: pre). cbn. by rewrite <- IH.
  - by exists [].
Qed.

Lemma lstrip_head s c t : lstrip s = c :: t → isspace c = false.
Proof.
  induction s as [|x s IH]; [done|]. cbn.
  destruct (isspace x) eqn:E; [done|]. by intros [= -> _].
Qed.

Lemma lstrip_fixed c t : isspace c = false → lstrip (c :: t) = c :: t.
Proof. cbn. by intros ->. Qed.

Lemma lstrip_idem s : lstrip (lstrip s) = lstrip s.
Proof.
  destruct (lstrip s) as [|c t] eqn:E; [done|].
  apply lstrip_fixed. by eapply lstrip_head.
Qed.

Lemma strip_idempotent s : strip (strip s) = strip s.
Proof.
  unfold strip, rstrip.
  destruct (lstrip_suffix (rev (lstrip s))) as [pre Hpre].
  set (b := lstrip (rev (lstrip s))) in *.
  assert (lstrip s = rev b ++ rev pre) as Ha.
  { by rewrite <- rev_app_distr, <- Hpre, rev_involutive. }
  assert (lstrip (rev b) = rev b) as Hb.
  { destruct (rev b) as [|c r] eqn:E; [done|].
    apply lstrip_fixed. by eapply lstrip_head. }
  rewrite Hb, rev_involutive. unfold b. by rewrite lstrip_idem.
Qed.

Lemma str_eqb_eq a b : str_eqb a b = true ↔ a = b.
Proof. unfold str_eqb. apply bool_decide_eq_true. Qed.

Lemma contains_false c l : contains c l = false ↔ Forall (λ x, c ≠ x) l.
Proof.
  unfold contains. induction l as [|x l IH]; simpl.
  - split; [constructor|done].
  - rewrite orb_false_iff, IH, Forall_cons, N.eqb_neq. done.
Qed.

(** ** Sanitizing *)

Lemma cleaned_no_nul content : NUL ∉ cleaned content.
Proof.
  unfold cleaned. rewrite <- crlf_then_cr, <- replace_nul.
  intros H. apply replace_elem in H as [H|H].
  { by apply list_elem_of_singleton in H. }
  apply replace_elem in H as [H|H].
  { by apply list_elem_of_singleton in H. }
  revert H. apply replace_one_absent, not_elem_of_nil.
Qed.

Lemma cleaned_no_cr content : CR ∉ cleaned content.
Proof.
  unfold cleaned. rewrite <- crlf_then_cr.
  apply replace_one_absent. by intros H%list_elem_of_singleton.
Qed.

Lemma sanitize_unfold content :
  content ≠ [] →
  _sanitize_for_json content
  = if endswith (cleaned content) [LF] then cleaned content
    else cleaned content ++ [LF].
Proof.
  intros Hne. destruct content as [|c t]; [done|].
  unfold _sanitize_for_json, cleaned. by rewrite crlf_then_cr, replace_nul.
Qed.

Lemma sanitize_facts content :
  content ≠ [] →
  (NUL ∉ _sanitize_for_json content)
  ∧ (CR ∉ _sanitize_for_json content)
  ∧ endswith (_sanitize_for_json content) [LF] = true.
Proof.
  intros Hne. rewrite sanitize_unfold by done.
  pose proof (cleaned_no_nul content) as Hn.
  pose proof (cleaned_no_cr content) as Hc.
  destruct (endswith (cleaned content) [LF]) eqn:E; [done|].
  repeat split.
  - rewrite elem_of_app. intros [H|H%list_elem_of_singleton]; done.
  - rewrite elem_of_app. intros [H|H%list_elem_of_singleton]; done.
  - apply endswith_snoc.
Qed.

Lemma sanitize_fixed s :
  NUL ∉ s → CR ∉ s → endswith s [LF] = true → _sanitize_for_json s = s.
Proof.
  intros Hn Hc He. destruct s as [|c t]; [done|].
  unfold _sanitize_for_json.
  rewrite (replace_absent NUL) by done.
  rewrite (replace_absent CR [LF] [LF] (c :: t)) by done.
  rewrite (replace_absent CR) by done.
  by rewrite He.
Qed.

(** C6, amended. For every non-empty content string, [_sanitize_for_json]
    returns the content without its NULs and with every [\r\n] and every
    bare [\r] turned into [\n], followed by one more [\n] exactly when that
    cleaned text does not already end with [\n]. The result holds no NUL
    and no [\r], and it ends with [\n]. *)
Theorem sanitize_nonempty_content (content : str) :
  content ≠ [] →
  _sanitize_for_json content
  = (if endswith (cleaned content) [LF] then cleaned content
     else cleaned content ++ [LF])
  ∧ (NUL ∉ _sanitize_for_json content)
  ∧ (CR ∉ _sanitize_for_json content)
  ∧ endswith (_sanitize_for_json content) [LF] = true.
Proof.
  intros Hne. split; [by apply sanitize_unfold|by apply sanitize_facts].
Qed.

Lemma sanitize_nonempty_content_witness :
  py "a" ++ [CR] ++ py "b" ≠ []
  ∧ _sanitize_for_json (py "a" ++ [CR] ++ py "b") = py "a" ++ [LF] ++ py "b" ++ [LF].
Proof.
  split; [done|].
  destruct (sanitize_nonempty_content (py "a" ++ [CR] ++ py "b")) as [H _];
    [done|exact H].
Defined.

(** C6 as stated fails on two inputs: the empty string stays empty, so it
    does not end with a newline, and content that ends with two newlines
    keeps both. *)
Lemma sanitize_empty_and_blank_lines :
  _sanitize_for_json [] = []
  ∧ endswith (_sanitize_for_json []) [LF] = false
  ∧ _sanitize_for_json (py "a" ++ [LF; LF]) = py "a" ++ [LF; LF].
Proof. done. Qed.

(** C10. [_sanitize_for_json] is idempotent: sanitizing a sanitized string
    changes nothing. *)
Theorem sanitize_idempotent (s : str) :
  _sanitize_for_json (_sanitize_for_json s) = _sanitize_for_json s.
Proof.
  destruct (decide (s = [])) as [->|Hne]; [done|].
  destruct (sanitize_facts s Hne) as (Hn & Hc & He).
  by apply sanitize_fixed.
Qed.

(** ** Reading *)

Lemma read_file_safely_returns (rt : reader) p :
  ∃ content ws,
    _read_file_safely rt p = (Return content, ws) ∧ (content = None → ws ≠ []).
Proof.
  unfold _read_file_safely. io_unfold.
  destruct (rt p utf_8) as [s|e]; [by eexists _, _|].
  destruct e; cbn; try (by eexists _, _).
  destruct (rt p latin_1) as [s|e']; by eexists _, _.
Qed.

(** C7. [_read_file_safely] never raises. Whatever [read_text] does on
    either attempt, the function returns, and it returns [None] only with a
    warning. On a disk, bytes that are valid UTF-8 give their text, any
    other bytes give their Latin-1 text, and a failed read gives [None]
    and one warning. *)
Theorem read_file_safely_never_raises :
  (∀ (read_text : reader) (file_path : Path),
      ∃ content warnings,
        _read_file_safely read_text file_path = (Return content, warnings)
        ∧ (content = None → warnings ≠ []))
  ∧ (∀ (d : disk) (file_path : Path),
      _read_file_safely (read_text d) file_path
      = match d file_path with
        | Return bs =>
            match utf8_decode (map Byte.to_N bs) with
            | Some s => (Return (Some (universal_newlines s)), [])
            | None =>
                (Return
                   (Some (universal_newlines (latin1_decode (map Byte.to_N bs)))),
                 [])
            end
        | Raise e =>
            (Return None,
             [if is_UnicodeDecodeError e then CouldNotRead file_path
              else ErrorReading file_path e])
        end).
Proof.
  split; [apply read_file_safely_returns|].
  intros d p. unfold _read_file_safely, read_text, decode. io_unfold.
  destruct (d p) as [bs|e].
  - by destruct (utf8_decode (map Byte.to_N bs)).
  - by destruct e.
Qed.

Example utf8_decode_examples :
  utf8_decode [195; 169] = Some [233]
  ∧ utf8_decode [226; 130; 172] = Some [8364]
  ∧ utf8_decode [240; 159; 152; 128] = Some [128512]
  ∧ utf8_decode [192; 128] = None
  ∧ utf8_decode [237; 160; 128] = None
  ∧ utf8_decode [244; 144; 128; 128] = None
  ∧ utf8_decode [226; 130] = None.
Proof. vm_compute. done. Qed.

Example read_invalid_utf8 :
  _read_file_safely (read_text (λ _, Return [Byte.xff; Byte.x0d; Byte.x0a])) [py "f"]
  = (Return (Some [255; LF]), []).
Proof. reflexivity. Qed.

(** ** The regular expression of a glob *)

Lemma not_special c :
  re_special c = false →
  c ≠ STAR ∧ c ≠ QUESTION ∧ c ≠ BACKSLASH ∧ c ≠ DOT ∧ c ≠ CARET ∧ c ≠ DOLLAR
  ∧ re_meta c = false.
Proof.
  unfold re_special. rewrite contains_false. unfold re_special_chars.
  rewrite !Forall_cons. intros H. destruct_and!.
  repeat split; try done.
  apply contains_false. unfold re_meta_chars. repeat constructor; done.
Qed.

Lemma escape_head p : startswith (re_escape p) [STAR] = false.
Proof.
  destruct p as [|c p]; [done|]. unfold re_escape. cbn [flat_map].
  destruct (re_special c) eqn:E; [done|].
  apply not_special in E as (E & _). cbn. apply N.eqb_neq in E. by rewrite E.
Qed.

Lemma escape_star_head p : startswith (flat_map escape_star p) [QUESTION] = false.
Proof.
  destruct p as [|c p]; [done|]. cbn [flat_map]. unfold escape_star.
  destruct (N.eqb_spec c STAR); [done|].
  destruct (re_special c) eqn:E; [done|].
  apply not_special in E as (_ & E & _). cbn. apply N.eqb_neq in E. by rewrite E.
Qed.

Lemma replace_star p :
  replace [BACKSLASH; STAR] [DOT; STAR] (re_escape p) = flat_map escape_star p.
Proof.
  induction p as [|c p IH]; [done|].
  change (re_escape (c :: p))
    with ((if re_special c then [BACKSLASH; c] else [c]) ++ re_escape p).
  cbn [flat_map]. unfold escape_star at 1.
  destruct (N.eqb_spec c STAR) as [->|Hc].
  - change (re_special STAR) with true. cbn [app].
    by rewrite replace2_hit, IH.
  - destruct (re_special c) eqn:E; cbn [app].
    + rewrite replace2_miss.
      2:{ rewrite startswith2. cbn. apply N.eqb_neq in Hc. by rewrite Hc. }
      rewrite replace2_miss.
      2:{ rewrite startswith2, escape_head. apply andb_false_r. }
      by rewrite IH.
    + apply not_special in E as (_ & _ & E & _).
      rewrite replace2_miss.
      2:{ rewrite startswith2. apply N.eqb_neq in E. by rewrite E. }
      by rewrite IH.
Qed.

Lemma replace_question p :
  replace [BACKSLASH; QUESTION] [DOT] (flat_map escape_star p) = flat_map translate p.
Proof.
  induction p as [|c p IH]; [done|].
  cbn [flat_map]. unfold escape_star at 1, translate at 1.
  destruct (N.eqb_spec c STAR) as [->|Hs].
  - cbn [app]. rewrite replace2_miss by done. rewrite replace2_miss by done.
    by rewrite IH.
  - destruct (N.eqb_spec c QUESTION) as [->|Hq].
    + change (re_special QUESTION) with true. cbn [app].
      by rewrite replace2_hit, IH.
    + destruct (re_special c) eqn:E; cbn [app].
      * rewrite replace2_miss.
        2:{ rewrite startswith2. cbn. apply N.eqb_neq in Hq. by rewrite Hq. }
        rewrite replace2_miss.
        2:{ rewrite startswith2, escape_star_head. apply andb_false_r. }
        by rewrite IH.
      * apply not_special in E as (_ & _ & E & _).
        rewrite replace2_miss.
        2:{ rewrite startswith2. apply N.eqb_neq in E. by rewrite E. }
        by rewrite IH.
Qed.

Lemma glob_to_regex_translate p : glob_to_regex p = flat_map translate p.
Proof.
  unfold glob_to_regex.
  change (py "\?") with [BACKSLASH; QUESTION]. change (py "\*") with [BACKSLASH; STAR].
  change (py ".*") with [DOT; STAR]. change (py ".") with [DOT].
  by rewrite replace_star, replace_question.
Qed.

Lemma re_parse_translated p :
  ∀ st, open_state st →
    re_parse st (flat_map translate p ++ [DOLLAR])
    = Some (flush st ++ map atom_of p ++ [AEol]).
Proof.
  induction p as [|c p IH]; intros st Hst.
  - destruct st; done.
  - cbn [flat_map map]. unfold translate at 1, atom_of at 1.
    destruct (N.eqb_spec c STAR) as [->|Hs].
    + cbn [app]. destruct st; [| |done]; cbn; by rewrite IH.
    + destruct (N.eqb_spec c QUESTION) as [->|Hq].
      * cbn [app]. destruct st; [| |done]; cbn; by rewrite IH.
      * destruct (re_special c) eqn:E.
        -- cbn [app]. destruct st; [| |done]; cbn -[re_special]; rewrite E, IH; done.
        -- pose proof (not_special c E) as (_ & _ & Hb & Hd & Hc & Hdl & Hm).
           apply N.eqb_neq in Hs, Hb, Hd, Hc, Hdl.
           cbn [app]. destruct st; [| |done]; cbn [re_parse];
             rewrite Hs, Hb, Hd, Hc, Hdl, Hm, IH by done; done.
Qed.

(** The compiled pattern is always inside the modelled fragment. *)
Lemma glob_regex_compiles pattern :
  is_Some (re_compile ([CARET] ++ glob_to_regex pattern ++ [DOLLAR])).
Proof.
  unfold re_compile. rewrite glob_to_regex_translate.
  cbn [app re_parse]. change (CARET =? STAR) with false.
  change (CARET =? BACKSLASH) with false. change (CARET =? CARET) with true.
  cbn iota. by rewrite re_parse_translated.
Qed.

Lemma at_end_no_newline name : LF ∉ name → at_end name = bool_decide (name = []).
Proof.
  destruct name as [|c [|d t]]; intros H; [done| |done].
  apply not_elem_of_cons in H as [H _]. cbn.
  destruct (N.eqb_spec c LF); [congruence|done].
Qed.

Lemma match_translated p :
  ∀ name at_start, LF ∉ name →
    match_here (map atom_of p ++ [AEol]) at_start name = glob_match p name.
Proof.
  induction p as [|c p IH]; intros name b Hn.
  - cbn. rewrite andb_true_r. by apply at_end_no_newline.
  - cbn [map app glob_match]. unfold atom_of at 1.
    destruct (N.eqb_spec c STAR) as [->|Hs].
    + cbn [match_here]. revert b.
      induction name as [|x t IHt]; intros b.
      * by rewrite IH.
      * apply not_elem_of_cons in Hn as [Hx Ht].
        rewrite IH by (by apply not_elem_of_cons). f_equal.
        cbn. destruct (N.eqb_spec x LF); [congruence|]. cbn. by apply IHt.
    + destruct (N.eqb_spec c QUESTION) as [->|Hq]; cbn [match_here simple_matches].
      * destruct name as [|x t]; [done|].
        apply not_elem_of_cons in Hn as [Hx Ht].
        destruct (N.eqb_spec x LF); [congruence|]. cbn. by apply IH.
      * destruct name as [|x t]; [done|].
        apply not_elem_of_cons in Hn as [Hx Ht].
        apply N.eqb_neq in Hq. rewrite (IH t false Ht).
        destruct (c =? QUESTION) eqn:E; [by apply N.eqb_eq in E|done].
Qed.

Lemma re_match_glob pattern name :
  LF ∉ name →
  re_match ([CARET] ++ glob_to_regex pattern ++ [DOLLAR]) name
  = Some (glob_match pattern name).
Proof.
  intros Hn. unfold re_match, re_compile. rewrite glob_to_regex_translate.
  cbn [app re_parse]. change (CARET =? STAR) with false.
  change (CARET =? BACKSLASH) with false. change (CARET =? CARET) with true.
  cbn iota. rewrite re_parse_translated by done.
  cbn. by rewrite match_translated.
Qed.

Lemma pattern_hits_glob name pattern :
  LF ∉ name →
  pattern_hits name pattern
  = if bool_decide (strip pattern = []) || startswith (strip pattern) [HASH]
    then false
    else if has_wildcard (strip pattern) then glob_match (strip pattern) name
         else bool_decide (name = strip pattern).
Proof.
  intros Hn. unfold pattern_hits.
  destruct (bool_decide (strip pattern = []) || startswith (strip pattern) [HASH]);
    [done|].
  destruct (has_wildcard (strip pattern)); [|done].
  rewrite re_match_glob by done. by destruct (glob_match (strip pattern) name).
Qed.

Lemma should_ignore_true (file_path : Path) (ignore_patterns : gset str) :
  _should_ignore file_path ignore_patterns = true
  ↔ startswith (path_name file_path) [DOT] = true
    ∨ ∃ pattern, pattern ∈ ignore_patterns
                 ∧ pattern_hits (path_name file_path) pattern = true.
Proof.
  unfold _should_ignore.
  destruct (startswith (path_name file_path) [DOT]); [by split; [left|]|].
  rewrite existsb_exists. split.
  - intros (p & Hin & Hp). right. exists p. split; [|done].
    by apply elem_of_elements, list_elem_of_In.
  - intros [?|(p & Hin & Hp)]; [done|]. exists p. split; [|done].
    by apply list_elem_of_In, elem_of_elements.
Qed.

(** C4, amended. For a file name without a newline character,
    [_should_ignore] is true exactly when the name starts with a dot, or
    some pattern of the set, once stripped, is not empty, is not a comment,
    and either has a wildcard and matches the whole name as a glob, or has
    none and equals the name. *)
Theorem should_ignore_is_glob (file_path : Path) (ignore_patterns : gset str) :
  LF ∉ path_name file_path →
  _should_ignore file_path ignore_patterns = true
  ↔ startswith (path_name file_path) [DOT] = true
    ∨ ∃ pattern,
        pattern ∈ ignore_patterns
        ∧ strip pattern ≠ []
        ∧ startswith (strip pattern) [HASH] = false
        ∧ if has_wildcard (strip pattern)
          then glob_match (strip pattern) (path_name file_path) = true
          else path_name file_path = strip pattern.
Proof.
  intros Hn. rewrite should_ignore_true.
  apply or_iff_compat_l. apply exist_proper. intros pattern.
  apply and_iff_compat_l. rewrite pattern_hits_glob by done.
  destruct (decide (strip pattern = [])) as [->|Hne].
  { rewrite bool_decide_eq_true_2 by done. cbn [orb]. intuition congruence. }
  rewrite bool_decide_eq_false_2 by done. cbn [orb].
  destruct (startswith (strip pattern) [HASH]); [intuition congruence|].
  destruct (has_wildcard (strip pattern)); [intuition congruence|].
  rewrite bool_decide_eq_true. intuition congruence.
Qed.

Lemma should_ignore_is_glob_witness :
  (LF ∉ path_name [py "src"; py "main.pyc"])
  ∧ _should_ignore [py "src"; py "main.pyc"] {[ py " *.py? " ; py "#*" ]} = true.
Proof.
  assert (LF ∉ path_name [py "src"; py "main.pyc"]) as Hn.
  { apply (bool_decide_unpack _). vm_compute. exact I. }
  split; [exact Hn|].
  apply (should_ignore_is_glob [py "src"; py "main.pyc"] _ Hn).
  right. exists (py " *.py? "). split; [set_solver|]. vm_compute. done.
Defined.

(** C4 as stated fails on patterns that the loop strips or skips: the
    comment line [#*] holds a wildcard but matches nothing, and the padded
    pattern [*.py ] matches [a.py], which its glob does not. *)
Lemma comment_and_padded_patterns_are_not_globs :
  (has_wildcard (py "#*") = true
   ∧ glob_match (py "#*") (py "#x") = true
   ∧ _should_ignore [py "#x"] {[ py "#*" ]} = false)
  ∧ (has_wildcard (py "*.py ") = true
     ∧ glob_match (py "*.py ") (py "a.py") = false
     ∧ _should_ignore [py "a.py"] {[ py "*.py " ]} = true).
Proof. vm_compute. done. Qed.

(** On a name with a newline the regular expression is not the glob: [.]
    does not match the newline, and [$] also matches before a final one. *)
Example newline_names_differ_from_glob :
  (glob_match (py "a?") (py "a" ++ [LF]) = true
   ∧ _should_ignore [py "a" ++ [LF]] {[ py "a?" ]} = false)
  ∧ (glob_match (py "*.py") (py "x.py" ++ [LF]) = false
     ∧ _should_ignore [py "x.py" ++ [LF]] {[ py "*.py" ]} = true).
Proof. vm_compute. done. Qed.

(** ** Loading the patterns *)

Lemma stripped_lines_spec (text pattern : str) :
  pattern ∈ (list_to_set
               (map strip (filter (λ line, strip line ≠ []) (file_lines text)))
             : gset str)
  ↔ pattern ≠ [] ∧ ∃ line, line ∈ file_lines text ∧ strip line = pattern.
Proof.
  rewrite elem_of_list_to_set, list_elem_of_In, in_map_iff. split.
  - intros (line & <- & Hin).
    apply list_elem_of_In, list_elem_of_filter in Hin as [Hne Hin]. eauto.
  - intros (Hne & line & Hin & <-). exists line. split; [done|].
    by apply list_elem_of_In, list_elem_of_filter.
Qed.

Lemma load_ignore_patterns_returns (d : disk) (ignore_file : option Path) :
  ∃ patterns warnings,
    _load_ignore_patterns d ignore_file = (Return patterns, warnings)
    ∧ (∀ file text,
          ignore_file = Some file → read_text d file utf_8 = Return text →
          patterns
          = list_to_set
              (map strip (filter (λ line, strip line ≠ []) (file_lines text))))
    ∧ ((∀ file text,
           ignore_file = Some file → read_text d file utf_8 ≠ Return text) →
       patterns = ∅).
Proof.
  unfold _load_ignore_patterns. destruct ignore_file as [file|].
  - io_unfold. destruct (read_text d file utf_8) as [text|e] eqn:E.
    + eexists _, _. split; [done|]. split.
      * intros f txt [= <-] Hr. rewrite E in Hr. by injection Hr as <-.
      * intros H. by destruct (H file text).
    + destruct e; cbn; eexists _, _; (split; [done|]);
        (split; [|done]); intros f txt [= <-] Hr; by rewrite E in Hr.
  - eexists _, _. split; [done|]. split; [by intros f txt ?|done].
Qed.

(** C8, amended. [_load_ignore_patterns] returns a set that holds no empty
    string and only stripped lines; when the file is read, the set is the
    stripped form of every line that is not blank, comment lines included.
    A comment line of the set never matches a name. *)
Theorem loaded_patterns_keep_comments (d : disk) (ignore_file : option Path) :
  ∃ patterns warnings,
    _load_ignore_patterns d ignore_file = (Return patterns, warnings)
    ∧ ([] ∉ patterns)
    ∧ (∀ pattern, pattern ∈ patterns → strip pattern = pattern)
    ∧ (∀ file text,
          ignore_file = Some file → read_text d file utf_8 = Return text →
          ∀ pattern,
            pattern ∈ patterns
            ↔ pattern ≠ []
              ∧ ∃ line, line ∈ file_lines text ∧ strip line = pattern)
    ∧ (∀ pattern name,
          pattern ∈ patterns → startswith pattern [HASH] = true →
          pattern_hits name pattern = false).
Proof.
  destruct (load_ignore_patterns_returns d ignore_file)
    as (patterns & warnings & Hload & Hread & Hfail).
  exists patterns, warnings. split; [done|].
  assert (∀ pattern, pattern ∈ patterns →
                     pattern ≠ [] ∧ strip pattern = pattern) as Hall.
  { intros pattern Hin. destruct ignore_file as [file|].
    - destruct (read_text d file utf_8) as [text|e] eqn:E.
      + rewrite (Hread file text eq_refl E) in Hin.
        apply stripped_lines_spec in Hin as (Hne & line & _ & <-).
        split; [done|apply strip_idempotent].
      + rewrite Hfail in Hin; [by apply not_elem_of_empty in Hin|].
        intros f txt [= <-] Hr. by rewrite E in Hr.
    - rewrite Hfail in Hin; [by apply not_elem_of_empty in Hin|done]. }
  split; [|split; [|split]].
  - intros H. by apply Hall in H as [? _].
  - intros pattern H. by apply Hall in H as [_ ?].
  - intros f txt Hf Hr pattern. rewrite (Hread f txt Hf Hr).
    apply stripped_lines_spec.
  - intros pattern name H Hc. apply Hall in H as [_ Hs].
    unfold pattern_hits. by rewrite Hs, Hc, orb_true_r.
Qed.

(** C8 as stated fails: the comment line of this ignore file is in the set
    that is handed to the matcher. *)
Lemma loaded_patterns_contain_comment :
  _load_ignore_patterns
    (λ _, Return (bytes_of (py "# build" ++ [LF] ++ [LF] ++ py "*.o" ++ [LF])))
    (Some [py ".reviewignore"])
  = (Return {[ py "# build"; py "*.o" ]}, []).
Proof. vm_compute. reflexivity. Qed.

(** ** Collecting *)

Lemma path_name_snoc (p : Path) name : path_name (p ++ [name]) = name.
Proof. unfold path_name. by rewrite last_snoc. Qed.

Lemma should_ignore_hidden (dir : Path) rest pats :
  _should_ignore (dir ++ [DOT :: rest]) pats = true.
Proof. unfold _should_ignore. by rewrite path_name_snoc. Qed.

Lemma should_ignore_false_visible path pats :
  _should_ignore path pats = false → visible (path_name path).
Proof.
  unfold _should_ignore, visible.
  by destruct (startswith (path_name path) [DOT]).
Qed.

Lemma collected_ok_below path name f :
  visible name → collected_ok (path ++ [name]) f → collected_ok path f.
Proof.
  intros Hv (rel & -> & Hrel & Hn). exists (name :: rel).
  rewrite <- app_assoc in Hn |- *. split; [done|]. split; [by constructor|done].
Qed.

Section CollectorFacts.

Variable lower : str → str.

Lemma entry_nested_ind (P : entry → Prop) :
  P RegularFile → P NoAccess → P Special →
  (∀ entries, Forall (λ e, P e.2) entries → P (Directory entries)) →
  ∀ e, P e.
Proof.
  intros Hf Hn Hs Hd. fix IH 1. intros [|entries| |]; try assumption.
  apply Hd. induction entries as [|[name child] entries IHe]; constructor.
  - apply IH.
  - apply IHe.
Qed.

(** The loop over the listing, one entry at a time. *)
Lemma collect_cons path recursive pats lang name child rest :
  _collect_files lower path (Directory ((name, child) :: rest)) recursive pats lang
  = (found ← yielded lower path recursive pats lang name child;
     later ← _collect_files lower path (Directory rest) recursive pats lang;
     mret (found ++ later)).
Proof. reflexivity. Qed.

Lemma collect_dir_ok recursive pats lang e :
  ∀ path, e ≠ Special → e ≠ RegularFile →
    ∃ files ws,
      _collect_files lower path e recursive pats lang = (Return files, ws)
      ∧ Forall (collected_ok path) files.
Proof.
  induction e as [| | |entries IH] using entry_nested_ind;
    intros path Hs Hr; try done.
  { by eexists _, _. }
  clear Hs Hr. induction entries as [|[name child] rest IHrest].
  { by eexists _, _. }
  apply Forall_cons in IH as [IHc IHr].
  destruct (IHrest IHr) as (fs' & ws' & E' & Hfs').
  rewrite collect_cons, E'. unfold yielded.
  destruct (_should_ignore (path ++ [name]) pats) eqn:Hig.
  { by eexists _, _. }
  apply should_ignore_false_visible in Hig. rewrite path_name_snoc in Hig.
  assert (∀ fs, Forall (collected_ok (path ++ [name])) fs →
                Forall (collected_ok path) fs) as Hup.
  { intros fs Hfs. eapply Forall_impl; [exact Hfs|].
    intros f. by apply collected_ok_below. }
  assert (∀ fs ws,
            _collect_files lower (path ++ [name]) child recursive pats lang
            = (Return fs, ws) →
            Forall (collected_ok (path ++ [name])) fs →
            ∃ files ws0,
              (found ← _collect_files lower (path ++ [name]) child recursive
                         pats lang;
               later ← (Return fs', ws') : io (list Path);
               mret (found ++ later))
              = (Return files, ws0)
              ∧ Forall (collected_ok path) files) as Hrec.
  { intros fs ws -> Hfs. eexists _, _. split; [done|].
    apply Forall_app. split; [by apply Hup|done]. }
  simpl in IHc. destruct child as [|sub| |].
  - destruct (language_excludes lower lang (path ++ [name])).
    { by eexists _, _. }
    eexists _, _. split; [done|]. constructor; [|done].
    exists [name]. rewrite path_name_snoc. repeat split; [|done].
    by constructor.
  - destruct recursive; [|by eexists _, _].
    destruct (IHc (path ++ [name])) as (fs & ws & E & Hfs); [done..|].
    by eapply Hrec.
  - destruct recursive; [|by eexists _, _].
    destruct (IHc (path ++ [name])) as (fs & ws & E & Hfs); [done..|].
    by eapply Hrec.
  - by eexists _, _.
Qed.

(** C9. A name that starts with a dot is ignored whatever the pattern
    set. So every path that [_collect_files] yields lies at or below the
    root it was given, with no hidden part below that root and no hidden
    name; and the traversal returns unless the root is neither a file nor
    a directory. *)
Theorem hidden_names_never_collected (path : Path) (e : entry)
    (recursive : bool) (ignore_patterns : gset str) (language_filter : option str) :
  (∀ (dir : Path) (rest : str) (any_patterns : gset str),
      _should_ignore (dir ++ [DOT :: rest]) any_patterns = true)
  ∧ match _collect_files lower path e recursive ignore_patterns language_filter with
    | (Return files, _) => Forall (collected_ok path) files
    | (Raise _, _) => e = Special
    end.
Proof.
  split; [apply should_ignore_hidden|].
  destruct e as [|entries| |]; [| | |done].
  - simpl. destruct (_should_ignore path ignore_patterns) eqn:Hig; [done|].
    constructor; [|done]. exists []. rewrite app_nil_r.
    split; [done|]. split; [done|]. by eapply should_ignore_false_visible.
  - destruct (collect_dir_ok recursive ignore_patterns language_filter
                (Directory entries) path) as (fs & ws & -> & Hfs); done.
  - simpl. constructor.
Qed.

(** C5. When the root is a regular file, [_collect_files] yields it exactly
    when [_should_ignore] is false for it, whatever the language tag. In a
    directory of regular files, an entry is yielded exactly when it is not
    ignored and the language test does not exclude it. *)
Theorem single_file_skips_language_filter (path : Path) (recursive : bool)
    (ignore_patterns : gset str) (language_filter : option str) :
  _collect_files lower path RegularFile recursive ignore_patterns language_filter
  = (Return (if _should_ignore path ignore_patterns then [] else [path]), [])
  ∧ ∀ names : list str,
      _collect_files lower path
        (Directory (map (λ name, (name, RegularFile)) names))
        recursive ignore_patterns language_filter
      = (Return
           (map (λ name, path ++ [name])
              (filter
                 (λ name,
                    _should_ignore (path ++ [name]) ignore_patterns = false
                    ∧ language_excludes lower language_filter (path ++ [name])
                      = false)
                 names)), []).
Proof.
  split; [done|]. intros names.
  induction names as [|name names IH]; [done|].
  cbn [map]. rewrite collect_cons, IH. unfold yielded.
  destruct (_should_ignore (path ++ [name]) ignore_patterns) eqn:Hig.
  { rewrite filter_cons_False; [done|]. intros [? _]; congruence. }
  destruct (language_excludes lower language_filter (path ++ [name])) eqn:Hl.
  { rewrite filter_cons_False; [done|]. intros [_ ?]; congruence. }
  by rewrite filter_cons_True.
Qed.

End CollectorFacts.

Example language_filter_in_both_modes :
  _collect_files ascii_lower [py "proj"]
    (Directory [(py "readme.md", RegularFile); (py "main.py", RegularFile)])
    false ∅ (Some (py "python"))
  = (Return [[py "proj"; py "main.py"]], [])
  ∧ _collect_files ascii_lower [py "proj"; py "readme.md"] RegularFile
      false ∅ (Some (py "python"))
    = (Return [[py "proj"; py "readme.md"]], []).
Proof. split; vm_compute; reflexivity. Qed.

(** ** Sorting *)

Lemma insert_sorted_perm {A} (le : A → A → bool) x l :
  insert_sorted le x l ≡ₚ x :: l.
Proof.
  induction l as [|y l IH]; [done|]. cbn.
  destruct (le x y); [done|]. rewrite IH. apply Permutation_swap.
Qed.

Lemma sorted_perm {A} (le : A → A → bool) l : sorted le l ≡ₚ l.
Proof.
  induction l as [|x l IH]; [done|]. cbn.
  by rewrite insert_sorted_perm, IH.
Qed.

Lemma sorted_elem {A} (le : A → A → bool) l x : x ∈ sorted le l ↔ x ∈ l.
Proof. by rewrite sorted_perm. Qed.

Lemma N_order_laws : order_laws N.compare.
Proof.
  split.
  - apply N.compare_eq_iff.
  - intros x y. apply N.compare_antisym.
  - intros x y z. rewrite !N.compare_lt_iff. lia.
Qed.

Lemma lex_order_laws {A} (cmp : A → A → comparison) :
  order_laws cmp → order_laws (lex_compare cmp).
Proof.
  intros [Heq Hanti Htrans]. split.
  - intros x. induction x as [|a x IH]; intros [|b y]; cbn; try done.
    destruct (cmp a b) eqn:E.
    + apply Heq in E as ->. rewrite IH. split; [by intros ->|by intros [= ->]].
    + split; [done|]. intros [= -> _]. by rewrite (proj2 (Heq b b)) in E.
    + split; [done|]. intros [= -> _]. by rewrite (proj2 (Heq b b)) in E.
  - intros x. induction x as [|a x IH]; intros [|b y]; cbn; try done.
    rewrite (Hanti a b). destruct (cmp a b); cbn; [apply IH|done..].
  - intros x. induction x as [|a x IH]; intros [|b y] [|c z]; cbn; try done.
    destruct (cmp a b) eqn:Eab; [|clear IH|done].
    + apply Heq in Eab as ->. destruct (cmp b c); [apply IH|done..].
    + intros _. destruct (cmp b c) eqn:Ebc; [| |done].
      * apply Heq in Ebc as ->. by rewrite Eab.
      * by rewrite (Htrans a b c).
Qed.

Lemma str_order_laws : order_laws str_compare.
Proof. apply lex_order_laws, N_order_laws. Qed.

Lemma path_order_laws : order_laws (lex_compare str_compare).
Proof. apply lex_order_laws, str_order_laws. Qed.

Section Leb.

Context {A} (cmp : A → A → comparison) (laws : order_laws cmp).

Lemma leb_of_true x y : leb_of cmp x y = true ↔ cmp x y = Lt ∨ x = y.
Proof.
  unfold leb_of. rewrite <- (cmp_eq cmp laws).
  destruct (cmp x y); intuition congruence.
Qed.

Lemma leb_of_total x y : leb_of cmp x y = false → leb_of cmp y x = true.
Proof.
  unfold leb_of. rewrite (cmp_antisym cmp laws x y). by destruct (cmp x y).
Qed.

#[local] Instance le_of_trans : Transitive (le_of cmp).
Proof.
  intros x y z. unfold le_of. rewrite !leb_of_true.
  pose proof (cmp_trans cmp laws x y z).
  intros [H1| ->] [H2| ->]; auto.
Qed.

#[local] Instance le_of_antisym : AntiSymm (=) (le_of cmp).
Proof.
  intros x y. unfold le_of. rewrite !leb_of_true.
  intros [H1| ->] [H2|H2]; try done.
  rewrite (cmp_antisym cmp laws), H1 in H2. done.
Qed.

Lemma insert_sorted_Sorted x l :
  Sorted (le_of cmp) l → Sorted (le_of cmp) (insert_sorted (leb_of cmp) x l).
Proof.
  induction 1 as [|y l Hs IH Hd]; cbn; [by repeat constructor|].
  destruct (leb_of cmp x y) eqn:E.
  - by repeat constructor.
  - constructor; [done|]. apply leb_of_total in E.
    destruct l as [|z l]; cbn; [by constructor|].
    destruct (leb_of cmp x z); constructor; [done|].
    by inversion Hd.
Qed.

Lemma sorted_Sorted l : Sorted (le_of cmp) (sorted (leb_of cmp) l).
Proof.
  induction l as [|x l IH]; [constructor|]. by apply insert_sorted_Sorted.
Qed.

Lemma sorted_of_permutation l1 l2 :
  l1 ≡ₚ l2 → sorted (leb_of cmp) l1 = sorted (leb_of cmp) l2.
Proof.
  intros Hp. apply (Sorted_unique (le_of cmp)); [apply sorted_Sorted..|].
  by rewrite !sorted_perm.
Qed.

End Leb.

Lemma lex_compare_common_prefix {A} (cmp : A → A → comparison) root a b :
  (∀ x, cmp x x = Eq) →
  lex_compare cmp (root ++ a) (root ++ b) = lex_compare cmp a b.
Proof. intros Hr. induction root as [|r root IH]; cbn; [done|]. by rewrite Hr. Qed.

Lemma path_le_common_prefix (root a b : Path) :
  path_le (root ++ a) (root ++ b) = path_le a b.
Proof.
  unfold path_le, leb_of. rewrite lex_compare_common_prefix; [done|].
  intros x. by apply (cmp_eq _ str_order_laws).
Qed.

Lemma sorted_paths_of_permutation (files files' : list Path) :
  files' ≡ₚ files → sorted path_le files' = sorted path_le files.
Proof. apply (sorted_of_permutation _ path_order_laws). Qed.

(** ** Drawing the tree *)

Lemma height_child name sub (t : tree) :
  (name, sub) ∈ t → (node_height sub < tree_height t)%nat.
Proof.
  unfold tree_height. cbn [node_height].
  induction t as [|[n s] t IH]; [by intros ?%elem_of_nil|].
  rewrite elem_of_cons. cbn [map foldr].
  intros [[= <- <-]|H]; [lia|]. apply IH in H. lia.
Qed.

Lemma build_tree_lines_upto_stable fuel1 :
  ∀ fuel2 node prefix is_last depth,
    (tree_height node ≤ fuel1)%nat → (tree_height node ≤ fuel2)%nat →
    build_tree_lines_upto fuel1 node prefix is_last depth
    = build_tree_lines_upto fuel2 node prefix is_last depth.
Proof.
  induction fuel1 as [|fuel1 IH]; intros fuel2 node prefix is_last depth H1 H2.
  { unfold tree_height in H1. cbn in H1. lia. }
  destruct fuel2 as [|fuel2].
  { unfold tree_height in H2. cbn in H2. lia. }
  cbn [build_tree_lines_upto]. f_equal. apply imap_ext.
  intros i [name subtree] Hi. cbn beta iota.
  destruct subtree as [|sub]; [done|]. f_equal.
  assert ((name, Dir sub) ∈ node) as Hin.
  { apply (sorted_elem (leb_of item_compare)). by eapply list_elem_of_lookup_2. }
  apply height_child in Hin. change (node_height (Dir sub)) with (tree_height sub) in Hin.
  apply IH; lia.
Qed.

Lemma build_tree_lines_enough_fuel fuel node prefix is_last depth :
  (tree_height node ≤ fuel)%nat →
  build_tree_lines_upto fuel node prefix is_last depth
  = build_tree_lines node prefix is_last depth.
Proof. intros H. by apply build_tree_lines_upto_stable. Qed.

(** The recursion of the source, without fuel. *)
Lemma build_tree_lines_unfold node prefix is_last depth :
  build_tree_lines node prefix is_last depth
  = let items := sorted (leb_of item_compare) node in
    concat
      (imap
         (fun i '(name, subtree) =>
            let is_last_item := bool_decide (i = (length items - 1)%nat) in
            let connector :=
              if bool_decide (depth = O) then []
              else if is_last then corner else tee in
            let line := prefix ++ connector ++ name in
            match subtree with
            | File => [line]
            | Dir sub =>
                let next_prefix :=
                  if bool_decide (depth = O) then []
                  else prefix ++ (if is_last then blank else bar) in
                (line ++ [SLASH])
                :: build_tree_lines sub next_prefix is_last_item (depth + 1)
            end)
         items).
Proof.
  unfold build_tree_lines at 1. unfold tree_height. cbn [node_height].
  cbn [build_tree_lines_upto]. cbn zeta. f_equal. apply imap_ext.
  intros i [name subtree] Hi. cbn beta iota.
  destruct subtree as [|sub]; [done|]. f_equal.
  assert ((name, Dir sub) ∈ node) as Hin.
  { apply (sorted_elem (leb_of item_compare)). by eapply list_elem_of_lookup_2. }
  apply height_child in Hin. unfold tree_height in Hin. cbn [node_height] in Hin.
  apply build_tree_lines_enough_fuel. unfold tree_height. cbn [node_height]. lia.
Qed.

Lemma flat_map_ext_elem {A B} (f g : A → list B) l :
  (∀ x, x ∈ l → f x = g x) → flat_map f l = flat_map g l.
Proof.
  induction l as [|x l IH]; intros H; [done|]. cbn.
  rewrite H by constructor. f_equal. apply IH. intros y Hy. apply H. by constructor.
Qed.

Lemma entries_upto_stable fuel1 :
  ∀ fuel2 node depth,
    (tree_height node ≤ fuel1)%nat → (tree_height node ≤ fuel2)%nat →
    entries_upto fuel1 node depth = entries_upto fuel2 node depth.
Proof.
  induction fuel1 as [|fuel1 IH]; intros fuel2 node depth H1 H2.
  { unfold tree_height in H1. cbn in H1. lia. }
  destruct fuel2 as [|fuel2].
  { unfold tree_height in H2. cbn in H2. lia. }
  cbn [entries_upto]. apply flat_map_ext_elem.
  intros [name subtree] Hin. destruct subtree as [|sub]; [done|]. f_equal.
  apply (proj1 (sorted_elem _ _ _)) in Hin.
  apply height_child in Hin.
  change (node_height (Dir sub)) with (tree_height sub) in Hin.
  apply IH; lia.
Qed.

Lemma Forall2_flat_map_imap {A B C} (R : B → C → Prop)
    (g : A → list B) (l : list A) :
  ∀ f : nat → A → list C,
    (∀ i x, Forall2 R (g x) (f i x)) →
    Forall2 R (flat_map g l) (concat (imap f l)).
Proof.
  induction l as [|x l IH]; intros f Hf; [constructor|].
  cbn. apply Forall2_app; [apply Hf|]. apply IH. intros i y. apply Hf.
Qed.

Lemma prefix_at_next depth prefix seg :
  prefix_at depth prefix → segment seg →
  prefix_at (depth + 1)
    (if bool_decide (depth = O) then [] else prefix ++ seg).
Proof.
  intros Hp Hs. destruct depth as [|k]; cbn.
  - exists []. by repeat split.
  - destruct Hp as (segs & Hl & Hf & ->). exists (segs ++ [seg]).
    rewrite length_app, Hl. split; [cbn; lia|]. split.
    + apply Forall_app. split; [done|]. by constructor.
    + rewrite concat_app. cbn. by rewrite app_nil_r.
Qed.

Lemma tree_lines_drawn fuel :
  ∀ node prefix is_last depth,
    prefix_at depth prefix →
    Forall2 drawn_as (entries_upto fuel node depth)
      (build_tree_lines_upto fuel node prefix is_last depth).
Proof.
  induction fuel as [|fuel IH]; intros node prefix is_last depth Hp; [constructor|].
  cbn [entries_upto build_tree_lines_upto].
  apply Forall2_flat_map_imap. intros i [name subtree].
  assert (∀ is_dir,
            drawn_as (depth, name, is_dir)
              ((prefix
                ++ (if bool_decide (depth = O) then []
                    else if is_last then corner else tee) ++ name)
               ++ (if is_dir then [SLASH] else []))) as Hline.
  { intros is_dir. unfold drawn_as. destruct depth as [|k].
    - cbn in Hp. subst prefix. done.
    - rewrite bool_decide_eq_false_2 by done.
      exists prefix, (if is_last then corner else tee).
      split; [done|]. split; [destruct is_last; [by left|by right]|].
      by rewrite <- !app_assoc. }
  destruct subtree as [|sub].
  - constructor; [|constructor]. specialize (Hline false).
    by rewrite app_nil_r in Hline.
  - constructor; [apply (Hline true)|]. apply IH.
    apply prefix_at_next; [done|]. destruct is_last; [by right|by left].
Qed.

(** C2, amended. The lines of the tree are its entries in the order of
    drawing, one line each. An entry at depth 0 is drawn as its name (and
    a slash for a directory), with no connector and no prefix. An entry at
    depth [d >= 1] is drawn as [d - 1] continuation segments, each a bar or
    a blank, then a corner or a tee, then its name (and a slash for a
    directory). *)
Theorem tree_lines_shape (node : tree) :
  Forall2 drawn_as (entries node) (build_tree_lines node [] true O).
Proof. by apply tree_lines_drawn. Qed.

(** C2 as stated fails at depth 0: the only entry of this tree is a last
    child, and it is drawn without the corner that the convention gives
    it. *)
Lemma top_level_entry_has_no_connector :
  _build_directory_layout [py "proj"] [[py "proj"; py "a.py"]]
  = Return (py "proj/" ++ [LF] ++ py "a.py" ++ [LF; LF])
  ∧ build_tree_lines [(py "a.py", File)] [] true O = [py "a.py"]
  ∧ convention_lines [(py "a.py", File)] = [corner ++ py "a.py"].
Proof. vm_compute. done. Qed.

Example sibling_files_both_get_the_corner :
  build_tree_lines [(py "d", Dir [(py "a", File); (py "b", File)])] [] true O
  = [py "d/"; corner ++ py "a"; corner ++ py "b"].
Proof. vm_compute. reflexivity. Qed.

Lemma item_le_file_dir (x y : str * node) :
  is_file x.2 = true → is_file y.2 = false → leb_of item_compare x y = true.
Proof. unfold leb_of, item_compare. by intros -> ->. Qed.

Lemma item_le_dir_file (x y : str * node) :
  is_file x.2 = false → is_file y.2 = true → leb_of item_compare x y = false.
Proof. unfold leb_of, item_compare. by intros -> ->. Qed.

Lemma insert_item_files_first x fs :
  ∀ ds,
    Forall (λ y : str * node, is_file y.2 = true) fs →
    Forall (λ y : str * node, is_file y.2 = false) ds →
    ∃ fs' ds',
      insert_sorted (leb_of item_compare) x (fs ++ ds) = fs' ++ ds'
      ∧ Forall (λ y : str * node, is_file y.2 = true) fs'
      ∧ Forall (λ y : str * node, is_file y.2 = false) ds'.
Proof.
  induction fs as [|y fs IH]; intros ds Hfs Hds.
  - destruct (is_file x.2) eqn:Ex.
    + exists [x], ds. split; [|by repeat constructor].
      destruct ds as [|d ds]; [done|]. cbn.
      apply Forall_cons in Hds as [Hd _]. by rewrite item_le_file_dir.
    + exists [], (insert_sorted (leb_of item_compare) x ds).
      split; [done|]. split; [constructor|].
      rewrite insert_sorted_perm. by constructor.
  - apply Forall_cons in Hfs as [Hy Hfs]. cbn.
    destruct (leb_of item_compare x y) eqn:E.
    + destruct (is_file x.2) eqn:Ex.
      * exists (x :: y :: fs), ds. by repeat constructor.
      * by rewrite item_le_dir_file in E.
    + destruct (IH ds Hfs Hds) as (fs' & ds' & -> & Hfs' & Hds').
      exists (y :: fs'), ds'. by repeat constructor.
Qed.

(** At every level the items are drawn files first: no directory comes
    before a file. *)
Lemma sorted_items_files_first (children : tree) :
  ∃ files dirs,
    sorted (leb_of item_compare) children = files ++ dirs
    ∧ Forall (λ y : str * node, is_file y.2 = true) files
    ∧ Forall (λ y : str * node, is_file y.2 = false) dirs.
Proof.
  induction children as [|x children (fs & ds & IH & Hfs & Hds)].
  - by exists [], [].
  - change (sorted (leb_of item_compare) (x :: children))
      with (insert_sorted (leb_of item_compare) x
              (sorted (leb_of item_compare) children)).
    rewrite IH. by apply insert_item_files_first.
Qed.

(** C1, at the input of the specification's own example: for the files
    [a.py] and [sub/b.py] the layout lists [a.py] before [sub/], a file before
    a directory. *)
Theorem layout_draws_file_before_directory :
  _build_directory_layout [py "proj"]
    [[py "proj"; py "a.py"]; [py "proj"; py "sub"; py "b.py"]]
  = Return (join [LF] [py "proj/"; py "a.py"; py "sub/"; corner ++ py "b.py"]
            ++ [LF; LF]).
Proof. vm_compute. reflexivity. Qed.

(** ** Building the tree *)

Lemma dict_get_cons {V} k k' (v : V) d :
  dict_get k ((k', v) :: d) = if str_eqb k' k then Some v else dict_get k d.
Proof. unfold dict_get. cbn. by destruct (str_eqb k' k). Qed.

Lemma dict_get_app {V} k k' (v : V) d :
  dict_get k (d ++ [(k', v)])
  = match dict_get k d with
    | Some x => Some x
    | None => if str_eqb k' k then Some v else None
    end.
Proof.
  induction d as [|[k0 v0] d IH]; cbn [app].
  - by rewrite dict_get_cons.
  - rewrite !dict_get_cons. by destruct (str_eqb k0 k).
Qed.

Lemma dict_get_set {V} k k' (v : V) d :
  is_Some (dict_get k d) →
  dict_get k' (dict_set k v d) = if str_eqb k k' then Some v else dict_get k' d.
Proof.
  induction d as [|[k0 v0] d IH]; [by intros [? ?]|].
  rewrite dict_get_cons. cbn [dict_set].
  destruct (str_eqb k0 k) eqn:E.
  - apply str_eqb_eq in E as ->. intros _. rewrite !dict_get_cons.
    by destruct (str_eqb k k').
  - intros H. rewrite !dict_get_cons, IH by done.
    destruct (str_eqb k0 k') eqn:E'; [|done].
    apply str_eqb_eq in E' as ->.
    destruct (str_eqb k k') eqn:E''; [|done].
    apply str_eqb_eq in E'' as ->. by rewrite (proj2 (str_eqb_eq k' k')) in E.
Qed.

Lemma dict_has_false {V} k (d : list (str * V)) :
  dict_has k d = false → dict_get k d = None.
Proof.
  unfold dict_has. intros H%bool_decide_eq_false.
  destruct (dict_get k d); [|done]. by destruct H.
Qed.

(** How the two updates of [add_parts] change a lookup. *)
Lemma dict_get_app_Some {V} k (v : V) d n x :
  dict_get k d = None →
  dict_get n (d ++ [(k, v)]) = Some x
  ↔ dict_get n d = Some x ∨ (n = k ∧ x = v).
Proof.
  intros Hk. rewrite dict_get_app. destruct (dict_get n d) eqn:En.
  - split; [by left|]. intros [?|[-> _]]; congruence.
  - destruct (str_eqb k n) eqn:E.
    + apply str_eqb_eq in E as ->. intuition congruence.
    + split; [done|]. intros [?|[-> _]]; [done|].
      by rewrite (proj2 (str_eqb_eq k k)) in E.
Qed.

Lemma dict_get_set_Some {V} k (v : V) d n x :
  is_Some (dict_get k d) →
  dict_get n (dict_set k v d) = Some x
  ↔ (n = k ∧ x = v) ∨ (n ≠ k ∧ dict_get n d = Some x).
Proof.
  intros Hk. rewrite dict_get_set by done. destruct (str_eqb k n) eqn:E.
  - apply str_eqb_eq in E as ->. intuition congruence.
  - assert (n ≠ k) by (intros ->; by rewrite (proj2 (str_eqb_eq k k)) in E).
    intuition congruence.
Qed.

Lemma dict_get_elem {V} k (v : V) d : dict_get k d = Some v → (k, v) ∈ d.
Proof.
  induction d as [|[k0 v0] d IH]; [done|]. rewrite dict_get_cons.
  destruct (str_eqb k0 k) eqn:E.
  - apply str_eqb_eq in E as ->. intros [= ->]. constructor.
  - intros H. apply elem_of_cons. right. by apply IH.
Qed.

Lemma leaf_nonempty t q : leaf t q → q ≠ [].
Proof. by destruct 1. Qed.

Lemma leaf_nil q : ¬ leaf [] q.
Proof. by inversion 1. Qed.

Lemma dir_at_nil q : ¬ dir_at [] q.
Proof. by inversion 1. Qed.

Lemma add_parts_step part next rest t :
  add_parts (part :: next :: rest) t
  = match dict_get part t with
    | None =>
        match add_parts (next :: rest) [] with
        | Return sub => Return (t ++ [(part, Dir sub)])
        | Raise e => Raise e
        end
    | Some (Dir sub) =>
        match add_parts (next :: rest) sub with
        | Return sub' => Return (dict_set part (Dir sub') t)
        | Raise e => Raise e
        end
    | Some File => Raise TypeError
    end.
Proof. reflexivity. Qed.

Lemma add_parts_returns parts :
  ∀ t,
    parts ≠ [] →
    (∀ pre rest, parts = pre ++ rest → rest ≠ [] → ¬ leaf t pre) →
    ∃ t', add_parts parts t = Return t'
          ∧ ∀ q, leaf t' q → leaf t q ∨ q = parts.
Proof.
  induction parts as [|p rest IH]; intros t Hne Hpre; [done|]. clear Hne.
  destruct rest as [|r rest].
  - cbn [add_parts]. eexists. split; [done|].
    destruct (dict_has p t) eqn:Hhas; [by left|].
    apply dict_has_false in Hhas. intros q Hq.
    inversion Hq as [? n Hn|? n sub r Hn Hr]; subst.
    + rewrite dict_get_app in Hn. destruct (dict_get n t) eqn:En.
      * left. constructor. congruence.
      * destruct (str_eqb p n) eqn:E; [|done].
        apply str_eqb_eq in E as ->. by right.
    + rewrite dict_get_app in Hn. destruct (dict_get n t) eqn:En.
      * left. econstructor; [|done]. congruence.
      * by destruct (str_eqb p n).
  - rewrite add_parts_step. destruct (dict_get p t) as [[|sub]|] eqn:Ep.
    + exfalso. apply (Hpre [p] (r :: rest)); [done..|]. by constructor.
    + destruct (IH sub) as (sub' & -> & Hsub'); [done| |].
      { intros pre rest' Heq Hr Hl.
        apply (Hpre (p :: pre) rest'); [cbn; by rewrite Heq|done|].
        by econstructor. }
      eexists. split; [done|]. intros q Hq.
      inversion Hq as [? n Hn|? n s r0 Hn Hr]; subst.
      * rewrite dict_get_set in Hn by (by rewrite Ep).
        destruct (str_eqb p n); [done|]. left. by constructor.
      * rewrite dict_get_set in Hn by (by rewrite Ep).
        destruct (str_eqb p n) eqn:E.
        -- apply str_eqb_eq in E as ->. injection Hn as <-.
           destruct (Hsub' _ Hr) as [Hl|Heq]; [|right; by f_equal].
           left. by econstructor.
        -- left. by econstructor.
    + destruct (IH []) as (sub & -> & Hsub); [done| |].
      { intros pre rest' _ _ Hl. by apply leaf_nil in Hl. }
      eexists. split; [done|]. intros q Hq.
      inversion Hq as [? n Hn|? n s r0 Hn Hr]; subst.
      * rewrite dict_get_app in Hn. destruct (dict_get n t) eqn:En.
        -- left. constructor. congruence.
        -- by destruct (str_eqb p n).
      * rewrite dict_get_app in Hn. destruct (dict_get n t) eqn:En.
        -- left. econstructor; [|done]. congruence.
        -- destruct (str_eqb p n) eqn:E; [|done].
           apply str_eqb_eq in E as ->. injection Hn as <-.
           destruct (Hsub _ Hr) as [Hl|Heq]; [by apply leaf_nil in Hl|].
           right. by f_equal.
Qed.

Lemma add_parts_keeps_leaves parts :
  ∀ t t', add_parts parts t = Return t' → ∀ q, leaf t q → leaf t' q.
Proof.
  induction parts as [|p rest IH]; intros t t' Hadd; [done|].
  destruct rest as [|r rest].
  - cbn [add_parts] in Hadd. injection Hadd as <-.
    destruct (dict_has p t) eqn:Hhas; [done|]. apply dict_has_false in Hhas.
    intros q Hq. destruct Hq as [t n Hn|t n sub r Hn Hr].
    + constructor. apply dict_get_app_Some; auto.
    + econstructor; [|done]. apply dict_get_app_Some; auto.
  - rewrite add_parts_step in Hadd.
    destruct (dict_get p t) as [[|sub]|] eqn:Ep; [done| |].
    + destruct (add_parts (r :: rest) sub) as [sub'|] eqn:Esub; [|done].
      injection Hadd as <-. intros q Hq.
      destruct Hq as [t n Hn|t n s r0 Hn Hr].
      * constructor. apply dict_get_set_Some; [by rewrite Ep|].
        right. split; [|done]. intros ->. congruence.
      * destruct (decide (n = p)) as [->|Hne].
        -- rewrite Ep in Hn. injection Hn as <-.
           econstructor; [|by eapply IH].
           apply dict_get_set_Some; [by rewrite Ep|]. by left.
        -- econstructor; [|done].
           apply dict_get_set_Some; [by rewrite Ep|]. by right.
    + destruct (add_parts (r :: rest) []) as [sub|] eqn:Esub; [|done].
      injection Hadd as <-. intros q Hq.
      destruct Hq as [t n Hn|t n s r0 Hn Hr].
      * constructor. apply dict_get_app_Some; auto.
      * econstructor; [|done]. apply dict_get_app_Some; auto.
Qed.

Lemma add_parts_adds_leaf parts :
  ∀ t t', add_parts parts t = Return t' → ¬ dir_at t parts → leaf t' parts.
Proof.
  induction parts as [|p rest IH]; intros t t' Hadd Hnd; [done|].
  destruct rest as [|r rest].
  - cbn [add_parts] in Hadd. injection Hadd as <-.
    destruct (dict_has p t) eqn:Hhas.
    + apply bool_decide_eq_true in Hhas as [[|sub] Hv]; [by constructor|].
      destruct Hnd. by econstructor.
    + apply dict_has_false in Hhas. constructor.
      apply dict_get_app_Some; auto.
  - rewrite add_parts_step in Hadd.
    destruct (dict_get p t) as [[|sub]|] eqn:Ep; [done| |].
    + destruct (add_parts (r :: rest) sub) as [sub'|] eqn:Esub; [|done].
      injection Hadd as <-. econstructor.
      * apply dict_get_set_Some; [by rewrite Ep|]. by left.
      * eapply IH; [done|]. intros Hd. apply Hnd. by econstructor.
    + destruct (add_parts (r :: rest) []) as [sub|] eqn:Esub; [|done].
      injection Hadd as <-. econstructor.
      * apply dict_get_app_Some; auto.
      * eapply IH; [done|]. apply dir_at_nil.
Qed.

Lemma add_parts_dirs parts :
  ∀ t t', add_parts parts t = Return t' →
    ∀ q, dir_at t' q → dir_at t q ∨ ∃ r, r ≠ [] ∧ parts = q ++ r.
Proof.
  induction parts as [|p rest IH]; intros t t' Hadd; [done|].
  destruct rest as [|r rest].
  - cbn [add_parts] in Hadd. injection Hadd as <-.
    destruct (dict_has p t) eqn:Hhas; [by left|]. apply dict_has_false in Hhas.
    intros q Hq. left. inversion Hq as [? n sub Hn|? n sub r Hn Hr]; subst.
    + apply (dict_get_app_Some _ _ _ _ _ Hhas) in Hn as [Hn|[_ [=]]].
      by econstructor.
    + apply (dict_get_app_Some _ _ _ _ _ Hhas) in Hn as [Hn|[_ [=]]].
      by econstructor.
  - rewrite add_parts_step in Hadd.
    destruct (dict_get p t) as [[|sub]|] eqn:Ep; [done| |].
    + destruct (add_parts (r :: rest) sub) as [sub'|] eqn:Esub; [|done].
      injection Hadd as <-. intros q Hq.
      assert (is_Some (dict_get p t)) as Hs by (by rewrite Ep).
      inversion Hq as [? n s Hn|? n s r0 Hn Hr]; subst.
      * apply (dict_get_set_Some _ _ _ _ _ Hs) in Hn as [[-> _]|[_ Hn]].
        -- left. by econstructor.
        -- left. by econstructor.
      * apply (dict_get_set_Some _ _ _ _ _ Hs) in Hn as [[-> [= <-]]|[_ Hn]].
        -- destruct (IH _ _ Esub _ Hr) as [Hd|(r1 & Hr1 & Heq)].
           ++ left. by econstructor.
           ++ right. exists r1. split; [done|]. cbn. by rewrite Heq.
        -- left. by econstructor.
    + destruct (add_parts (r :: rest) []) as [sub|] eqn:Esub; [|done].
      injection Hadd as <-. intros q Hq.
      inversion Hq as [? n s Hn|? n s r0 Hn Hr]; subst.
      * apply (dict_get_app_Some _ _ _ _ _ Ep) in Hn as [Hn|[-> _]].
        -- left. by econstructor.
        -- right. by exists (r :: rest).
      * apply (dict_get_app_Some _ _ _ _ _ Ep) in Hn as [Hn|[-> [= <-]]].
        -- left. by econstructor.
        -- destruct (IH _ _ Esub _ Hr) as [Hd|(r1 & Hr1 & Heq)].
           ++ by apply dir_at_nil in Hd.
           ++ right. exists r1. split; [done|]. cbn. by rewrite Heq.
Qed.

Lemma relative_to_app root rel : relative_to (root ++ rel) root = Return rel.
Proof.
  induction root as [|r root IH]; cbn; [by destruct rel|].
  by rewrite (proj2 (str_eqb_eq r r)).
Qed.

Lemma build_tree_leaves root files :
  ∀ processed t,
    Forall (strictly_below root) files →
    no_file_inside_a_file (processed ++ files) →
    (∀ q, leaf t q ↔ root ++ q ∈ processed) →
    (∀ q, dir_at t q → ∃ r, r ≠ [] ∧ leaf t (q ++ r)) →
    ∃ t', build_tree root files t = Return t'
          ∧ ∀ q, root ++ q ∈ processed ++ files → leaf t' q.
Proof.
  induction files as [|f files IH]; intros processed t Hb Hno Hinv Hfull.
  { exists t. split; [done|]. intros q. rewrite app_nil_r. apply Hinv. }
  apply Forall_cons in Hb as [(rel & Hrel & ->) Hb].
  cbn [build_tree]. rewrite relative_to_app.
  destruct (add_parts_returns rel t Hrel) as (t' & Hadd & Ht').
  { intros pre rest -> Hrest Hl. apply Hrest.
    apply (Hno (root ++ pre) (root ++ pre ++ rest)).
    - apply elem_of_app. left. by apply Hinv.
    - apply elem_of_app. right. constructor.
    - by rewrite app_assoc. }
  rewrite Hadd.
  assert (leaf t' rel) as Hnew.
  { apply (add_parts_adds_leaf _ _ _ Hadd). intros Hd.
    destruct (Hfull _ Hd) as (r & Hr & Hl). apply Hr.
    apply (Hno (root ++ rel) (root ++ rel ++ r)).
    - apply elem_of_app. right. constructor.
    - apply elem_of_app. left. by apply Hinv.
    - by rewrite app_assoc. }
  destruct (IH (processed ++ [root ++ rel]) t') as (t'' & Hb' & Hl'').
  - done.
  - by rewrite <- app_assoc.
  - intros q. rewrite elem_of_app, list_elem_of_singleton. split.
    + intros Hq. destruct (Ht' q Hq) as [Hl| ->]; [left; by apply Hinv|by right].
    + intros [Hq|Hq%app_inv_head].
      * apply (add_parts_keeps_leaves _ _ _ Hadd). by apply Hinv.
      * by subst.
  - intros q Hq. destruct (add_parts_dirs _ _ _ Hadd _ Hq) as [Hd|(r & Hr & ->)].
    + destruct (Hfull _ Hd) as (r & Hr & Hl). exists r. split; [done|].
      by apply (add_parts_keeps_leaves _ _ _ Hadd).
    + by exists r.
  - exists t''. split; [done|]. intros q Hq. apply Hl''. by rewrite <- app_assoc.
Qed.

Lemma elem_of_concat_imap {A B} (l : list A) :
  ∀ (f : nat → A → list B) i x y,
    l !! i = Some x → y ∈ f i x → y ∈ concat (imap f l).
Proof.
  induction l as [|a l IH]; intros f i x y Hi Hy; [done|].
  cbn. apply elem_of_app. destruct i as [|i].
  - injection Hi as ->. by left.
  - right. by apply (IH (f ∘ S) i x).
Qed.

Lemma leaf_is_drawn t q :
  leaf t q →
  ∀ prefix is_last depth,
    ∃ indent, indent ++ default [] (last q)
              ∈ build_tree_lines t prefix is_last depth.
Proof.
  induction 1 as [t name Hn|t name sub rest Hn Hl IH]; intros prefix is_last depth.
  - apply dict_get_elem, (sorted_elem (leb_of item_compare)),
      list_elem_of_lookup in Hn as [i Hi].
    eexists. rewrite build_tree_lines_unfold. cbn zeta.
    eapply elem_of_concat_imap; [done|]. cbn beta iota.
    rewrite app_assoc. constructor.
  - apply dict_get_elem, (sorted_elem (leb_of item_compare)),
      list_elem_of_lookup in Hn as [i Hi].
    rewrite build_tree_lines_unfold. cbn zeta.
    edestruct IH as [indent Hin]. exists indent.
    eapply elem_of_concat_imap; [done|]. cbn beta iota.
    apply elem_of_cons. right.
    replace (default [] (last (name :: rest))) with (default [] (last rest));
      [exact Hin|].
    apply leaf_nonempty in Hl. by destruct rest.
Qed.

Lemma join_contains_line (lines : list str) line :
  line ∈ lines →
  ∀ head, ∃ before after,
    join [LF] (head :: lines) ++ [LF; LF]
    = before ++ [LF] ++ line ++ [LF] ++ after.
Proof.
  induction 1 as [line lines|line other lines Hin IH]; intros head.
  - exists head. destruct lines as [|next lines].
    + exists [LF]. cbn. by rewrite <- !app_assoc.
    + exists (join [LF] (next :: lines) ++ [LF; LF]).
      change (join [LF] (head :: line :: next :: lines))
        with (head ++ [LF] ++ line ++ [LF] ++ join [LF] (next :: lines)).
      by rewrite <- !app_assoc.
  - destruct (IH other) as (before & after & Heq).
    exists (head ++ [LF] ++ before), after.
    change (join [LF] (head :: other :: lines))
      with (head ++ [LF] ++ join [LF] (other :: lines)).
    rewrite <- !app_assoc. do 2 f_equal. by rewrite <- Heq.
Qed.

Lemma every_file_is_drawn root files :
  Forall (strictly_below root) files → no_file_inside_a_file files →
  ∀ f, f ∈ files →
    ∃ layout before indent after,
      _build_directory_layout root files = Return layout
      ∧ layout = before ++ [LF] ++ (indent ++ path_name f) ++ [LF] ++ after.
Proof.
  intros Hb Hno f Hf. unfold _build_directory_layout.
  destruct files as [|f0 files]; [by apply elem_of_nil in Hf|].
  destruct (build_tree_leaves root (sorted path_le (f0 :: files)) [] [])
    as (t & -> & Hleaves).
  - by rewrite sorted_perm.
  - cbn [app]. intros a b rest Ha Hb'.
    apply Hno; by rewrite <- (sorted_perm path_le).
  - intros q. split; [by intros ?%leaf_nil|by intros ?%elem_of_nil].
  - intros q Hq. by apply dir_at_nil in Hq.
  - apply (proj1 (Forall_forall _ _) Hb) in Hf as Hrel.
    destruct Hrel as (rel & Hrel & ->).
    assert (leaf t rel) as Hl.
    { apply Hleaves. cbn [app]. by rewrite sorted_perm. }
    destruct (leaf_is_drawn t rel Hl [] true O) as [indent Hin].
    destruct (join_contains_line _ _ Hin (path_name root ++ [SLASH]))
      as (before & after & Heq).
    eexists _, before, indent, after. split; [done|].
    rewrite Heq. unfold path_name. rewrite last_app.
    by destruct (last rel) eqn:E; [|apply last_None in E].
Qed.

Lemma layout_of_permutation root files files' :
  files' ≡ₚ files →
  _build_directory_layout root files' = _build_directory_layout root files.
Proof.
  intros Hp. unfold _build_directory_layout.
  rewrite (sorted_paths_of_permutation files files' Hp).
  destruct files as [|f files].
  - by apply Permutation_nil_r in Hp as ->.
  - destruct files' as [|f' files']; [|done].
    symmetry in Hp. by apply Permutation_nil_r in Hp.
Qed.

(** ** Assembling *)

Lemma file_contents_returns (rt : reader) root files :
  Forall (strictly_below root) files →
  ∃ l ws,
    file_contents rt root files = (Return l, ws)
    ∧ concat l = concat (map (body_block rt root) files).
Proof.
  induction 1 as [|f files (rel & _ & ->) _ (l & ws & IH & Hl)].
  { by eexists _, _. }
  cbn [file_contents map concat]. unfold body_block at 1.
  destruct (read_file_safely_returns rt (root ++ rel)) as (c & w & -> & _).
  io_unfold. rewrite relative_to_app. cbn [fst].
  destruct c as [content|]; rewrite IH.
  - eexists _, _. split; [done|]. cbn [concat]. rewrite Hl.
    unfold start_marker, end_marker. by rewrite <- !app_assoc.
  - eexists _, _. split; [done|]. by rewrite Hl.
Qed.

(** C3. For a list of files that lie strictly below the root, none inside
    another, [_build_prompt] returns the layout of all the files followed
    by one block per file that could be read, in the order of
    [sorted(files)]. That order is sorted, it is the order of the relative
    paths, and it does not depend on the order in which the files were
    listed. Every file, read or not, has its line in the layout. *)
Theorem prompt_is_layout_then_blocks (read_text : reader)
    (root_path : Path) (files : list Path) :
  Forall (strictly_below root_path) files →
  no_file_inside_a_file files →
  ∃ layout warnings,
    _build_directory_layout root_path files = Return layout
    ∧ _build_prompt read_text root_path files
      = (Return (layout
                 ++ concat (map (body_block read_text root_path)
                              (sorted path_le files))),
         warnings)
    ∧ Sorted (λ f g, path_le f g = true) (sorted path_le files)
    ∧ (∀ rel1 rel2,
          path_le (root_path ++ rel1) (root_path ++ rel2) = path_le rel1 rel2)
    ∧ (∀ files',
          files' ≡ₚ files →
          _build_prompt read_text root_path files'
          = _build_prompt read_text root_path files)
    ∧ (∀ f, f ∈ files →
          ∃ before indent after,
            layout = before ++ [LF] ++ (indent ++ path_name f) ++ [LF] ++ after).
Proof.
  intros Hb Hno.
  assert (∃ layout, _build_directory_layout root_path files = Return layout)
    as [layout Hl].
  { destruct files as [|f files]; [by eexists|].
    destruct (every_file_is_drawn root_path (f :: files) Hb Hno f)
      as (layout & _ & _ & _ & Hl & _); [constructor|by eexists]. }
  destruct (file_contents_returns read_text root_path (sorted path_le files))
    as (l & ws & Hc & Hbody).
  { by rewrite sorted_perm. }
  exists layout, ws. split; [done|]. split; [|split; [|split; [|split]]].
  - unfold _build_prompt. rewrite Hl, Hc. io_unfold.
    by rewrite Hbody, app_nil_r.
  - apply (sorted_Sorted _ path_order_laws).
  - apply path_le_common_prefix.
  - intros files' Hp. unfold _build_prompt.
    by rewrite (layout_of_permutation _ _ _ Hp),
      (sorted_paths_of_permutation _ _ Hp).
  - intros f Hf.
    destruct (every_file_is_drawn root_path files Hb Hno f Hf)
      as (layout' & before & indent & after & Hl' & Heq).
    exists before, indent, after. congruence.
Qed.

Lemma example_files_below : Forall (strictly_below example_root) example_files.
Proof.
  repeat constructor.
  - by exists [py "sub"; py "b.py"].
  - by exists [py "a.py"].
Qed.

Lemma example_files_disjoint : no_file_inside_a_file example_files.
Proof.
  intros f g rest Hf Hg Heq. unfold example_files in *.
  list_cases Hf; list_cases Hg; vm_compute in Heq; by simplify_eq.
Qed.

Lemma prompt_is_layout_then_blocks_witness :
  Forall (strictly_below example_root) example_files
  ∧ no_file_inside_a_file example_files
  ∧ ∃ layout warnings,
      _build_directory_layout example_root example_files = Return layout
      ∧ _build_prompt (read_text example_disk) example_root example_files
        = (Return (layout
                   ++ concat (map (body_block (read_text example_disk) example_root)
                                (sorted path_le example_files))),
           warnings).
Proof.
  split; [apply example_files_below|]. split; [apply example_files_disjoint|].
  destruct (prompt_is_layout_then_blocks (read_text example_disk) example_root
              example_files example_files_below example_files_disjoint)
    as (layout & warnings & Hl & Hp & _).
  by exists layout, warnings.
Defined.

Example prompt_round_trip :
  _build_prompt (read_text example_disk) example_root example_files
  = (Return
       (py "proj/" ++ [LF] ++ py "a.py" ++ [LF] ++ py "sub/" ++ [LF]
        ++ corner ++ py "b.py" ++ [LF; LF]
        ++ [LF] ++ py "+++ a.py START +++" ++ [LF] ++ py "x" ++ [LF]
        ++ [LF] ++ py "+++ a.py END +++" ++ [LF]
        ++ [LF] ++ py "+++ sub/b.py START +++" ++ [LF] ++ py "y" ++ [LF]
        ++ [LF] ++ py "+++ sub/b.py END +++" ++ [LF]),
     []).
Proof. vm_compute. reflexivity. Qed.

Example unread_file_stays_in_layout :
  _build_prompt (read_text example_disk) example_root
    ([py "proj"; py "gone.txt"] :: example_files)
  = (Return
       (py "proj/" ++ [LF] ++ py "a.py" ++ [LF] ++ py "gone.txt" ++ [LF]
        ++ py "sub/" ++ [LF] ++ corner ++ py "b.py" ++ [LF; LF]
        ++ [LF] ++ py "+++ a.py START +++" ++ [LF] ++ py "x" ++ [LF]
        ++ [LF] ++ py "+++ a.py END +++" ++ [LF]
        ++ [LF] ++ py "+++ sub/b.py START +++" ++ [LF] ++ py "y" ++ [LF]
        ++ [LF] ++ py "+++ sub/b.py END +++" ++ [LF]),
     [ErrorReading [py "proj"; py "gone.txt"] FileNotFoundError]).
Proof. vm_compute. reflexivity. Qed.

(* ================================================================= *)
(** * Further properties of the code *)

(** ** What sanitizing leaves alone *)

Lemma normalize_newlines_no_cr s : CR ∉ s → normalize_newlines s = s.
Proof.
  induction s as [|c t IH]; [done|]. intros H.
  apply not_elem_of_cons in H as [Hc Ht]. cbn [normalize_newlines].
  destruct (N.eqb_spec c CR); [congruence|]. by rewrite IH.
Qed.

Lemma universal_newlines_no_cr s : CR ∉ universal_newlines s.
Proof.
  unfold universal_newlines. apply replace_one_absent.
  by intros H%list_elem_of_singleton.
Qed.

Lemma filter_normalize_newlines (P : N → Prop) `{∀ c, Decision (P c)} s :
  ¬ P CR → ¬ P LF → filter P (normalize_newlines s) = filter P s.
Proof.
  intros Hcr Hlf. remember (length s) as n eqn:Hn. revert s Hn.
  induction (lt_wf n) as [n _ IH]. intros s ->.
  destruct s as [|c t]; [done|]. cbn [normalize_newlines].
  destruct (N.eqb_spec c CR) as [->|Hc].
  - rewrite filter_cons_False by done. rewrite (filter_cons_False _ CR) by done.
    destruct t as [|d t']; [done|].
    destruct (N.eqb_spec d LF) as [->|Hd].
    + rewrite (filter_cons_False _ LF) by done. eapply IH; [|done]. simpl. lia.
    + eapply IH; [|done]. simpl. lia.
  - rewrite !filter_cons. destruct (decide (P c)); [f_equal|];
      (eapply IH; [|done]; simpl; lia).
Qed.

(** X1. The strings that [_sanitize_for_json] returns unchanged are the
    empty string and the strings without NUL and without [\r] that end
    with [\n]. *)
Theorem sanitize_fixed_points (s : str) :
  _sanitize_for_json s = s
  ↔ s = [] ∨ ((NUL ∉ s) ∧ (CR ∉ s) ∧ endswith s [LF] = true).
Proof.
  split.
  - intros Hfix. destruct (decide (s = [])) as [->|Hne]; [by left|]. right.
    rewrite <- Hfix. by apply sanitize_facts.
  - intros [->|(Hn & Hc & He)]; [done|]. by apply sanitize_fixed.
Qed.

(** X2. [_sanitize_for_json] touches NUL, [\r] and [\n] only: every other
    character of the content is in the result, in the same order, and
    nothing else is. *)
Theorem sanitize_keeps_plain_characters (content : str) :
  filter plain (_sanitize_for_json content) = filter plain content.
Proof.
  destruct (decide (content = [])) as [->|Hne]; [done|].
  rewrite sanitize_unfold by done.
  assert (filter plain (cleaned content) = filter plain content) as Hc.
  { unfold cleaned.
    rewrite filter_normalize_newlines;
      [|by intros (_ & ? & _)|by intros (_ & _ & ?)].
    rewrite list_filter_filter. apply list_filter_iff. intros c.
    unfold plain. tauto. }
  destruct (endswith (cleaned content) [LF]); [done|].
  rewrite filter_app, Hc. rewrite filter_cons_False; [|by intros (_ & _ & ?)].
  by rewrite filter_nil, app_nil_r.
Qed.

(** X3. Text that [read_text] has read holds no [\r], because text mode
    has translated the line endings already. On such content
    [_sanitize_for_json] only drops the NULs and completes the last line. *)
Theorem sanitize_of_text_read (d : disk) (file_path : Path) (enc : encoding)
    (content : str) :
  read_text d file_path enc = Return content →
  (CR ∉ content)
  ∧ _sanitize_for_json content
    = match content with
      | [] => []
      | _ :: _ =>
          let kept := filter (λ c, c ≠ NUL) content in
          if endswith kept [LF] then kept else kept ++ [LF]
      end.
Proof.
  unfold read_text. destruct (d file_path) as [bs|e]; [|done].
  destruct (decode enc bs) as [s|e]; [|done]. intros [= <-].
  pose proof (universal_newlines_no_cr s) as Hcr. split; [done|].
  destruct (universal_newlines s) as [|c t] eqn:E; [done|].
  rewrite sanitize_unfold by done. unfold cleaned.
  rewrite normalize_newlines_no_cr; [done|].
  intros H. apply list_elem_of_filter in H as [_ H]. done.
Qed.

Lemma sanitize_of_text_read_witness :
  read_text (disk_of [([py "f"], py "a" ++ [CR; LF; NUL] ++ py "b")]) [py "f"] utf_8
  = Return (py "a" ++ [LF; NUL] ++ py "b")
  ∧ _sanitize_for_json (py "a" ++ [LF; NUL] ++ py "b")
    = py "a" ++ [LF] ++ py "b" ++ [LF].
Proof.
  assert (read_text (disk_of [([py "f"], py "a" ++ [CR; LF; NUL] ++ py "b")])
            [py "f"] utf_8
          = Return (py "a" ++ [LF; NUL] ++ py "b")) as Hread.
  { vm_compute. reflexivity. }
  split; [exact Hread|].
  destruct (sanitize_of_text_read _ _ _ _ Hread) as [_ ->].
  vm_compute. reflexivity.
Defined.

(** ** What the patterns ignore *)

(** X4. Ignoring distributes over the union of pattern sets, and the empty
    set ignores the hidden names only: a pattern never makes an ignored
    name visible again. *)
Theorem should_ignore_union (file_path : Path) (patterns more : gset str) :
  _should_ignore file_path (patterns ∪ more)
  = _should_ignore file_path patterns || _should_ignore file_path more
  ∧ _should_ignore file_path ∅ = startswith (path_name file_path) [DOT].
Proof.
  split.
  - apply eq_true_iff_eq.
    rewrite orb_true_iff, !should_ignore_true. split.
    + intros [H|(p & [Hin|Hin]%elem_of_union & Hp)]; eauto.
    + intros [[H|(p & Hin & Hp)]|[H|(p & Hin & Hp)]]; eauto;
        right; exists p; (split; [set_solver|done]).
  - unfold _should_ignore. rewrite elements_empty.
    by destruct (startswith (path_name file_path) [DOT]).
Qed.

Lemma glob_match_literal pattern :
  ∀ name, glob_match pattern name = true →
    ∀ c, c ∈ pattern → c ≠ STAR → c ≠ QUESTION → c ∈ name.
Proof.
  induction pattern as [|p pattern IH]; intros name Hm c Hc Hs Hq.
  { by apply elem_of_nil in Hc. }
  cbn [glob_match] in Hm. destruct (N.eqb_spec p STAR) as [->|Hp].
  - apply elem_of_cons in Hc as [->|Hc]; [done|].
    induction name as [|x t IHt].
    + rewrite orb_false_r in Hm. by eapply IH.
    + apply orb_true_iff in Hm as [Hm|Hm]; [by eapply IH|].
      apply elem_of_cons. right. by apply IHt.
  - destruct name as [|x t]; [done|].
    apply andb_true_iff in Hm as [Hx Hm].
    apply elem_of_cons in Hc as [->|Hc].
    + apply orb_true_iff in Hx as [Hx|Hx].
      * by apply N.eqb_eq in Hx.
      * apply N.eqb_eq in Hx as ->. constructor.
    + apply elem_of_cons. right. by eapply IH.
Qed.

Lemma pattern_with_slash_misses name pattern :
  LF ∉ name → SLASH ∉ name → SLASH ∈ strip pattern →
  pattern_hits name pattern = false.
Proof.
  intros Hn Hs Hp. rewrite pattern_hits_glob by done.
  destruct (bool_decide (strip pattern = []) || startswith (strip pattern) [HASH]);
    [done|].
  destruct (has_wildcard (strip pattern)).
  - destruct (glob_match (strip pattern) name) eqn:E; [|done].
    destruct Hs. by eapply glob_match_literal.
  - apply bool_decide_eq_false. intros ->. done.
Qed.

(** X5. A pattern is matched against the last component of the path only,
    so a pattern that holds a slash, as [build/] or [src/*.py] do, matches
    no name: with such patterns only the hidden names are ignored. *)
Theorem patterns_with_a_slash_ignore_nothing (file_path : Path)
    (ignore_patterns : gset str) :
  LF ∉ path_name file_path → SLASH ∉ path_name file_path →
  (∀ pattern, pattern ∈ ignore_patterns → SLASH ∈ strip pattern) →
  _should_ignore file_path ignore_patterns
  = startswith (path_name file_path) [DOT].
Proof.
  intros Hn Hs Hall. apply eq_true_iff_eq. rewrite should_ignore_true.
  split; [|by left]. intros [H|(p & Hin & Hp)]; [done|].
  rewrite pattern_with_slash_misses in Hp; [done..|]. by apply Hall.
Qed.

Lemma patterns_with_a_slash_ignore_nothing_witness :
  (LF ∉ path_name [py "proj"; py "build"])
  ∧ (SLASH ∉ path_name [py "proj"; py "build"])
  ∧ _should_ignore [py "proj"; py "build"] {[ py "build/"; py "src/*.py" ]}
    = false.
Proof.
  assert (LF ∉ path_name [py "proj"; py "build"]) as Hn.
  { apply (bool_decide_unpack _). vm_compute. exact I. }
  assert (SLASH ∉ path_name [py "proj"; py "build"]) as Hs.
  { apply (bool_decide_unpack _). vm_compute. exact I. }
  split; [exact Hn|]. split; [exact Hs|].
  apply (patterns_with_a_slash_ignore_nothing [py "proj"; py "build"]
           {[ py "build/"; py "src/*.py" ]} Hn Hs).
  intros pattern Hin.
  apply elem_of_union in Hin as [Hin|Hin]; apply elem_of_singleton in Hin;
    subst pattern; apply (bool_decide_unpack _); vm_compute; exact I.
Defined.

Lemma pattern_hits_strip name line :
  pattern_hits name (strip line) = pattern_hits name line.
Proof. unfold pattern_hits. by rewrite strip_idempotent. Qed.

Lemma pattern_hits_blank name line : strip line = [] → pattern_hits name line = false.
Proof. unfold pattern_hits. by intros ->. Qed.

(** X6. Loading an ignore file and matching against the loaded set comes
    to matching against the lines of the file as they are: a name is
    ignored exactly when it is hidden or some line of the file hits it.
    When the file cannot be read, only the hidden names are ignored. *)
Theorem ignore_file_lines_decide (d : disk) (ignore_file file_path : Path) :
  ∃ patterns warnings,
    _load_ignore_patterns d (Some ignore_file) = (Return patterns, warnings)
    ∧ _should_ignore file_path patterns
      = startswith (path_name file_path) [DOT]
        || match read_text d ignore_file utf_8 with
           | Return text =>
               existsb (pattern_hits (path_name file_path)) (file_lines text)
           | Raise _ => false
           end.
Proof.
  destruct (load_ignore_patterns_returns d (Some ignore_file))
    as (patterns & warnings & Hload & Hread & Hfail).
  exists patterns, warnings. split; [done|].
  apply eq_true_iff_eq. rewrite should_ignore_true, orb_true_iff.
  apply or_iff_compat_l.
  destruct (read_text d ignore_file utf_8) as [text|e] eqn:E.
  - rewrite (Hread _ _ eq_refl E), existsb_exists. split.
    + intros (p & Hin & Hp).
      apply stripped_lines_spec in Hin as (_ & line & Hin & <-).
      exists line. split; [by apply list_elem_of_In|].
      by rewrite <- pattern_hits_strip.
    + intros (line & Hin & Hp). exists (strip line). split.
      * apply stripped_lines_spec. split.
        -- intros Hb. by rewrite pattern_hits_blank in Hp.
        -- exists line. split; [by apply list_elem_of_In|done].
      * by rewrite pattern_hits_strip.
  - rewrite Hfail; [|intros f txt [= <-] Hr; by rewrite E in Hr].
    split; [|done]. intros (p & Hin & _). by apply not_elem_of_empty in Hin.
Qed.

(** ** What the traversal yields *)



Lemma same_files_refl r : same_files r r.
Proof. by destruct r as [[fs|e] ws]. Qed.

Lemma same_files_trans r1 r2 r3 :
  same_files r1 r2 → same_files r2 r3 → same_files r1 r3.
Proof.
  destruct r1 as [[fs1|e1] w1], r2 as [[fs2|e2] w2], r3 as [[fs3|e3] w3];
    cbn; try done.
  - intros [-> ->] [-> ->]. done.
  - intros [-> ->] [-> ->]. done.
Qed.

Lemma relisted_kind e e' : relisted e e' → same_kind e e'.
Proof.
  induction 1 as [e| | |e1 e2 e3 _ IH1 _ IH2]; try done.
  - by destruct e.
  - destruct e1, e2; try done; by destruct e3.
Qed.

Lemma Forall2_permuted {A B} (R : A → B → Prop) l l' found :
  l ≡ₚ l' → Forall2 R l found →
  ∃ found', found ≡ₚ found' ∧ Forall2 R l' found'.
Proof.
  intros Hp. revert found.
  induction Hp as [|x l l' Hp IH|x y l|l1 l2 l3 _ IH1 _ IH2]; intros found Hf.
  - by exists found.
  - apply Forall2_cons_inv_l in Hf as (b & found0 & Hb & Hf & ->).
    destruct (IH _ Hf) as (found' & Hp' & Hf'). exists (b :: found').
    split; [by constructor|by constructor].
  - apply Forall2_cons_inv_l in Hf as (b & found0 & Hb & Hf & ->).
    apply Forall2_cons_inv_l in Hf as (c & found1 & Hc & Hf & ->).
    exists (c :: b :: found1). split; [apply Permutation_swap|by repeat constructor].
  - destruct (IH1 _ Hf) as (f2 & Hp2 & Hf2). destruct (IH2 _ Hf2) as (f3 & Hp3 & Hf3).
    exists f3. split; [by etrans|done].
Qed.

Lemma concat_permuted {A} (l l' : list (list A)) : l ≡ₚ l' → concat l ≡ₚ concat l'.
Proof. intros H. by rewrite H. Qed.

Section TraversalFacts.

Variable lower : str → str.

Lemma selects_cons recursive pats lang path name child rest f :
  selects lower recursive pats lang path ((name, child) :: rest) f
  ↔ (_should_ignore (path ++ [name]) pats = false
     ∧ match child with
       | RegularFile =>
           language_excludes lower lang (path ++ [name]) = false
           ∧ f = path ++ [name]
       | Directory children =>
           recursive = true
           ∧ selects lower recursive pats lang (path ++ [name]) children f
       | _ => False
       end)
    ∨ selects lower recursive pats lang path rest f.
Proof.
  split.
  - inversion 1 as [? ? n Hin Hig Hl|? ? n children ? Hr Hin Hig Hs]; subst.
    + apply elem_of_cons in Hin as [[= -> <-]|Hin]; [by left|].
      right. by constructor.
    + apply elem_of_cons in Hin as [[= -> <-]|Hin]; [by left|].
      right. by econstructor.
  - intros [[Hig H]|H].
    + destruct child as [|children| |]; try done.
      * destruct H as [Hl ->]. constructor; [constructor|done..].
      * destruct H as [Hr Hs]. econstructor; [done|constructor|done..].
    + inversion H as [? ? n Hin Hig Hl|? ? n children ? Hr Hin Hig Hs]; subst.
      * constructor; [by apply elem_of_cons; right|done..].
      * econstructor; [done|by apply elem_of_cons; right|done..].
Qed.

Lemma selects_nil recursive pats lang path f :
  ¬ selects lower recursive pats lang path [] f.
Proof. inversion 1 as [? ? n Hin|? ? n c ? ? Hin]; by apply elem_of_nil in Hin. Qed.




Lemma collect_selects recursive pats lang e :
  ∀ path, e ≠ Special → e ≠ RegularFile →
    ∃ files ws,
      _collect_files lower path e recursive pats lang = (Return files, ws)
      ∧ ∀ f, f ∈ files
             ↔ match e with
               | Directory entries =>
                   selects lower recursive pats lang path entries f
               | _ => False
               end.
Proof.
  induction e as [| | |entries IH] using entry_nested_ind;
    intros path Hs Hr; try done.
  { eexists _, _. split; [done|]. intros f. split; [by intros ?%elem_of_nil|done]. }
  clear Hs Hr. induction entries as [|[name child] rest IHrest].
  { eexists _, _. split; [done|]. intros f.
    split; [by intros ?%elem_of_nil|by intros ?%selects_nil]. }
  apply Forall_cons in IH as [IHc IHr].
  destruct (IHrest IHr) as (fs' & ws' & E' & Hfs').
  rewrite collect_cons, E'. unfold yielded.
  setoid_rewrite selects_cons. setoid_rewrite <- Hfs'.
  destruct (_should_ignore (path ++ [name]) pats) eqn:Hig.
  { eexists _, _. split; [done|]. intros f. cbn. intuition congruence. }
  simpl in IHc. destruct child as [|sub| |].
  - destruct (language_excludes lower lang (path ++ [name])) eqn:Hl.
    { eexists _, _. split; [done|]. intros f. cbn. intuition congruence. }
    eexists _, _. split; [done|]. intros f. cbn. rewrite elem_of_cons. intuition.
  - destruct recursive.
    2:{ eexists _, _. split; [done|]. intros f. cbn. intuition congruence. }
    destruct (IHc (path ++ [name])) as (fs & ws & -> & Hfs); [done..|].
    eexists _, _. split; [done|]. intros f. rewrite elem_of_app, Hfs. intuition.
  - destruct recursive.
    2:{ eexists _, _. split; [done|]. intros f. cbn. intuition congruence. }
    eexists _, _. split; [done|]. intros f. cbn. intuition.
  - eexists _, _. split; [done|]. intros f. cbn. intuition.
Qed.

(** X7. Without the recursive flag the traversal yields the regular files
    that the directory lists itself, in the order of the listing, each one
    that is not ignored and that the language test keeps. No subdirectory
    is entered, not even to find that it cannot be read: nothing is
    printed. *)
Theorem flat_collection_is_direct (path : Path) (entries : list (str * entry))
    (ignore_patterns : gset str) (language_filter : option str) :
  _collect_files lower path (Directory entries) false ignore_patterns language_filter
  = (Return
       (map (λ item, path ++ [item.1])
          (filter
             (λ item,
                is_regular item.2 = true
                ∧ _should_ignore (path ++ [item.1]) ignore_patterns = false
                ∧ language_excludes lower language_filter (path ++ [item.1])
                  = false)
             entries)), []).
Proof.
  induction entries as [|[name child] entries IH]; [done|].
  rewrite collect_cons, IH. unfold yielded. cbn [fst snd].
  destruct (_should_ignore (path ++ [name]) ignore_patterns) eqn:Hig.
  { rewrite filter_cons_False; [done|]. cbn. intros (_ & ? & _). congruence. }
  destruct child as [|sub| |].
  - destruct (language_excludes lower language_filter (path ++ [name])) eqn:Hl.
    { rewrite filter_cons_False; [done|]. cbn. intros (_ & _ & ?). congruence. }
    by rewrite filter_cons_True.
  - rewrite filter_cons_False; [done|]. by intros [? _].
  - rewrite filter_cons_False; [done|]. by intros [? _].
  - rewrite filter_cons_False; [done|]. by intros [? _].
Qed.

(** X8. The traversal of a directory returns, and it yields a path exactly
    when that path is a regular file reached through directories that are
    not ignored (with the recursive flag; else listed by the root itself),
    is not ignored itself, and passes the language test. An ignored
    directory hides everything below it. *)
Theorem collected_iff_selected (path : Path) (entries : list (str * entry))
    (recursive : bool) (ignore_patterns : gset str) (language_filter : option str) :
  ∃ files warnings,
    _collect_files lower path (Directory entries) recursive ignore_patterns
      language_filter = (Return files, warnings)
    ∧ ∀ f, f ∈ files
           ↔ selects lower recursive ignore_patterns language_filter path entries f.
Proof.
  destruct (collect_selects recursive ignore_patterns language_filter
              (Directory entries) path) as (files & ws & E & H); [done..|].
  by exists files, ws.
Qed.

Lemma collect_language_ext recursive pats lang1 lang2 e :
  (∀ item, language_excludes lower lang1 item = language_excludes lower lang2 item) →
  ∀ path,
    _collect_files lower path e recursive pats lang1
    = _collect_files lower path e recursive pats lang2.
Proof.
  intros Hl. induction e as [| | |entries IH] using entry_nested_ind;
    intros path; try done.
  induction entries as [|[name child] rest IHrest]; [done|].
  apply Forall_cons in IH as [IHc IHr].
  rewrite !collect_cons, (IHrest IHr). f_equal. unfold yielded.
  destruct (_should_ignore (path ++ [name]) pats); [done|].
  simpl in IHc. destruct child as [|sub| |]; [by rewrite Hl| | |done].
  - destruct recursive; [apply IHc|done].
  - destruct recursive; [apply IHc|done].
Qed.

(** X9. A language tag that the table of extensions does not list filters
    nothing: the traversal yields what it yields without a tag. *)
Theorem unknown_language_filters_nothing (path : Path) (e : entry)
    (recursive : bool) (ignore_patterns : gset str) (language : str) :
  dict_get (lower language) extensions = None →
  _collect_files lower path e recursive ignore_patterns (Some language)
  = _collect_files lower path e recursive ignore_patterns None.
Proof.
  intros Hk. apply collect_language_ext. intros item.
  unfold language_excludes. rewrite Hk. by destruct language.
Qed.




(** What the entries of a listing yield, one after the other. *)
Lemma collect_listing recursive pats lang path entries :
  ∃ found : list (list Path * list warning),
    Forall2 (λ item fw,
               yielded lower path recursive pats lang item.1 item.2
               = (Return fw.1, fw.2)) entries found
    ∧ _collect_files lower path (Directory entries) recursive pats lang
      = (Return (concat found.*1), concat found.*2).
Proof.
  induction entries as [|[name child] rest (found & Hall & E)].
  { exists []. split; [constructor|done]. }
  assert (∃ fs ws, yielded lower path recursive pats lang name child
                   = (Return fs, ws)) as (fs & ws & Ey).
  { unfold yielded.
    destruct (_should_ignore (path ++ [name]) pats); [by eexists _, _|].
    destruct child as [|sub| |]; [|..|by eexists _, _].
    - destruct (language_excludes lower lang (path ++ [name])); by eexists _, _.
    - destruct recursive; [|by eexists _, _].
      destruct (collect_dir_ok lower true pats lang (Directory sub) (path ++ [name]))
        as (fs & ws & E0 & _); [done..|]. by eexists _, _.
    - destruct recursive; [|by eexists _, _]. cbn. io_unfold. by eexists _, _. }
  exists ((fs, ws) :: found). split; [by constructor|].
  rewrite collect_cons, Ey, E. io_unfold. cbn. by rewrite app_nil_r.
Qed.

Lemma yields_unique recursive pats lang path l :
  ∀ found found' : list (list Path * list warning),
    Forall2 (λ item fw,
               yielded lower path recursive pats lang item.1 item.2
               = (Return fw.1, fw.2)) l found →
    Forall2 (λ item fw,
               yielded lower path recursive pats lang item.1 item.2
               = (Return fw.1, fw.2)) l found' →
    found = found'.
Proof.
  intros found found' Hf. revert found'.
  induction Hf as [|[n c] [gs vs] l f H _ IH]; intros f' H'.
  - by apply Forall2_nil_inv_l in H'.
  - apply Forall2_cons_inv_l in H' as ([gs' vs'] & f0 & H0 & Hf0 & ->).
    cbn in *. rewrite H in H0. injection H0 as -> ->. f_equal. by apply IH.
Qed.

Lemma relisted_collect recursive pats lang e e' :
  relisted e e' →
  ∀ path,
    same_files (_collect_files lower path e recursive pats lang)
      (_collect_files lower path e' recursive pats lang).
Proof.
  induction 1 as [e|entries entries' Hp|before name child child' after Hr IH
                 |e1 e2 e3 _ IH1 _ IH2]; intros path.
  - apply same_files_refl.
  - destruct (collect_listing recursive pats lang path entries) as (found & Hall & ->).
    destruct (Forall2_permuted _ _ _ _ Hp Hall) as (found' & Hp' & Hall').
    destruct (collect_listing recursive pats lang path entries')
      as (found'' & Hall'' & ->).
    rewrite (yields_unique _ _ _ _ _ _ _ Hall'' Hall').
    cbn. split; apply concat_permuted; by apply fmap_Permutation.
  - destruct (collect_listing recursive pats lang path
                (before ++ (name, child) :: after)) as (found & Hall & ->).
    destruct (collect_listing recursive pats lang path
                (before ++ (name, child') :: after)) as (found' & Hall' & ->).
    apply Forall2_app_inv_l in Hall as (fb & fr & Hb & Hrest & ->).
    apply Forall2_cons_inv_l in Hrest as ([fs ws] & fa & Hc & Ha & ->).
    apply Forall2_app_inv_l in Hall' as (fb' & fr' & Hb' & Hrest' & ->).
    apply Forall2_cons_inv_l in Hrest' as ([fs' ws'] & fa' & Hc' & Ha' & ->).
    rewrite (yields_unique _ _ _ _ _ _ _ Hb' Hb),
      (yields_unique _ _ _ _ _ _ _ Ha' Ha).
    clear Hb Hb' Ha Ha'. cbn [fst snd] in Hc, Hc'.
    assert (fs ≡ₚ fs' ∧ ws ≡ₚ ws') as [Hfs Hws].
    { unfold yielded in Hc, Hc'.
      destruct (_should_ignore (path ++ [name]) pats).
      { injection Hc as <- <-. injection Hc' as <- <-. done. }
      pose proof (relisted_kind _ _ Hr) as Hk. specialize (IH (path ++ [name])).
      destruct child as [|sub| |], child' as [|sub'| |]; try done.
      - rewrite Hc in Hc'. by injection Hc' as <- <-.
      - destruct recursive.
        + rewrite Hc, Hc' in IH. exact IH.
        + injection Hc as <- <-. injection Hc' as <- <-. done.
      - rewrite Hc in Hc'. by injection Hc' as <- <-.
      - rewrite Hc in Hc'. by injection Hc' as <- <-. }
    cbn. rewrite !fmap_app, !fmap_cons, !concat_app, !concat_cons. cbn [fst snd].
    by rewrite Hfs, Hws.
  - eapply same_files_trans; [apply IH1|apply IH2].
Qed.

(** X11. The order in which directories list their entries does not
    matter: listed in another order, at any level, the same tree yields
    the same files and the same warnings up to their order, and the
    document built from the files is the same. *)
Theorem listing_order_does_not_matter (path : Path)
    (entries entries' : list (str * entry)) (recursive : bool)
    (ignore_patterns : gset str) (language_filter : option str) :
  relisted (Directory entries) (Directory entries') →
  ∃ files files' warnings warnings',
    _collect_files lower path (Directory entries) recursive ignore_patterns
      language_filter = (Return files, warnings)
    ∧ _collect_files lower path (Directory entries') recursive ignore_patterns
        language_filter = (Return files', warnings')
    ∧ files ≡ₚ files'
    ∧ warnings ≡ₚ warnings'
    ∧ ∀ read_text : reader,
        _build_prompt read_text path files = _build_prompt read_text path files'.
Proof.
  intros Hr.
  pose proof (relisted_collect recursive ignore_patterns language_filter _ _ Hr path)
    as Hsame.
  destruct (collect_dir_ok lower recursive ignore_patterns language_filter
              (Directory entries) path) as (files & ws & E & _); [done..|].
  destruct (collect_dir_ok lower recursive ignore_patterns language_filter
              (Directory entries') path) as (files' & ws' & E' & _); [done..|].
  rewrite E, E' in Hsame. destruct Hsame as [Hf Hw].
  exists files, files', ws, ws'. split; [done|]. split; [done|].
  split; [done|]. split; [done|]. intros rt. unfold _build_prompt.
  by rewrite (layout_of_permutation _ _ _ Hf), (sorted_paths_of_permutation _ _ Hf).
Qed.

End TraversalFacts.

Lemma unknown_language_filters_nothing_witness :
  dict_get (ascii_lower (py "TypeScript")) extensions = None
  ∧ _collect_files ascii_lower [py "proj"]
      (Directory [(py "a.ts", RegularFile); (py "notes.md", RegularFile)])
      true ∅ (Some (py "TypeScript"))
    = _collect_files ascii_lower [py "proj"]
        (Directory [(py "a.ts", RegularFile); (py "notes.md", RegularFile)])
        true ∅ None.
Proof.
  split; [reflexivity|].
  apply (unknown_language_filters_nothing ascii_lower). reflexivity.
Defined.



Lemma listing_order_does_not_matter_witness :
  relisted (Directory example_listing) (Directory (rev example_listing))
  ∧ ∃ files files',
      (_collect_files ascii_lower example_root (Directory example_listing)
         true ∅ None).1 = Return files
      ∧ (_collect_files ascii_lower example_root (Directory (rev example_listing))
           true ∅ None).1 = Return files'
      ∧ _build_prompt (read_text example_disk) example_root files
        = _build_prompt (read_text example_disk) example_root files'.
Proof.
  assert (relisted (Directory example_listing) (Directory (rev example_listing)))
    as Hr.
  { apply relisted_order, Permutation_rev. }
  split; [exact Hr|].
  destruct (listing_order_does_not_matter ascii_lower example_root _ _
              true ∅ None Hr)
    as (files & files' & ws & ws' & E & E' & _ & _ & Hp).
  exists files, files'. rewrite E, E'. split; [done|]. split; [done|]. apply Hp.
Defined.

(** ** When the layout can be drawn *)

Lemma relative_to_inv root : ∀ p rel, relative_to p root = Return rel → p = root ++ rel.
Proof.
  induction root as [|r root IH]; intros p rel.
  - cbn. destruct p; by intros [= ->].
  - destruct p as [|x p]; [done|]. cbn.
    destruct (str_eqb x r) eqn:E; [|done]. apply str_eqb_eq in E as ->.
    intros H. by rewrite (IH _ _ H).
Qed.





Lemma add_parts_leaf_inv parts :
  ∀ t t', add_parts parts t = Return t' →
    ∀ q, leaf t' q → leaf t q ∨ q = parts.
Proof.
  induction parts as [|p rest IH]; intros t t' Hadd; [done|].
  destruct rest as [|r rest].
  - cbn [add_parts] in Hadd. injection Hadd as <-.
    destruct (dict_has p t) eqn:Hhas; [by left|]. apply dict_has_false in Hhas.
    intros q Hq. inversion Hq as [? n Hn|? n sub r Hn Hr]; subst.
    + apply (dict_get_app_Some _ _ _ _ _ Hhas) in Hn as [Hn|[-> _]];
        [left; by constructor|by right].
    + apply (dict_get_app_Some _ _ _ _ _ Hhas) in Hn as [Hn|[_ [=]]].
      left. by econstructor.
  - rewrite add_parts_step in Hadd.
    destruct (dict_get p t) as [[|sub]|] eqn:Ep; [done| |].
    + destruct (add_parts (r :: rest) sub) as [sub'|] eqn:Esub; [|done].
      injection Hadd as <-. intros q Hq.
      assert (is_Some (dict_get p t)) as Hs by (by rewrite Ep).
      inversion Hq as [? n Hn|? n s r0 Hn Hr]; subst.
      * apply (dict_get_set_Some _ _ _ _ _ Hs) in Hn as [[_ [=]]|[_ Hn]].
        left. by constructor.
      * apply (dict_get_set_Some _ _ _ _ _ Hs) in Hn as [[-> [= <-]]|[_ Hn]].
        -- destruct (IH _ _ Esub _ Hr) as [Hl| ->]; [|by right].
           left. by econstructor.
        -- left. by econstructor.
    + destruct (add_parts (r :: rest) []) as [sub|] eqn:Esub; [|done].
      injection Hadd as <-. intros q Hq.
      inversion Hq as [? n Hn|? n s r0 Hn Hr]; subst.
      * apply (dict_get_app_Some _ _ _ _ _ Ep) in Hn as [Hn|[_ [=]]].
        left. by constructor.
      * apply (dict_get_app_Some _ _ _ _ _ Ep) in Hn as [Hn|[-> [= <-]]].
        -- left. by econstructor.
        -- destruct (IH _ _ Esub _ Hr) as [Hl| ->]; [by apply leaf_nil in Hl|by right].
Qed.

Lemma build_tree_only root files : ∀ t t',
  build_tree root files t = Return t' →
  ∀ q, leaf t' q → leaf t q ∨ root ++ q ∈ files.
Proof.
  induction files as [|f files IH]; intros t t'.
  { intros [= <-] q Hq. by left. }
  cbn [build_tree].
  destruct (relative_to f root) as [rel|] eqn:Er; [|done].
  destruct (add_parts rel t) as [t0|] eqn:Ea; [|done].
  intros Hb q Hq. apply relative_to_inv in Er as ->.
  destruct (IH _ _ Hb _ Hq) as [Hl|Hin].
  - destruct (add_parts_leaf_inv _ _ _ Ea _ Hl) as [Hl0| ->]; [by left|].
    right. constructor.
  - right. by constructor.
Qed.

(** A path that extends another one comes after it. *)
Lemma path_le_extension (f rest : Path) : rest ≠ [] → path_le (f ++ rest) f = false.
Proof.
  intros Hr. unfold path_le, leb_of.
  replace (lex_compare str_compare (f ++ rest) f) with Gt; [done|].
  induction f as [|x f IH]; cbn; [by destruct rest|].
  by rewrite (proj2 (cmp_eq _ str_order_laws x x) eq_refl).
Qed.

Lemma build_tree_sorted_leaves root files :
  ∀ processed t t',
    (∀ p f, p ∈ processed → f ∈ files → path_le p f = true) →
    StronglySorted (λ f g, path_le f g = true) files →
    (∀ q, root ++ q ∈ processed → leaf t q) →
    (∀ q, dir_at t q → ∃ r, r ≠ [] ∧ root ++ q ++ r ∈ processed) →
    build_tree root files t = Return t' →
    ∀ q, root ++ q ∈ processed ++ files → leaf t' q.
Proof.
  induction files as [|f files IH]; intros processed t t' Hle Hs Hleaf Hdir.
  { intros [= <-] q. rewrite app_nil_r. apply Hleaf. }
  cbn [build_tree].
  destruct (relative_to f root) as [rel|] eqn:Er; [|done].
  destruct (add_parts rel t) as [t0|] eqn:Ea; [|done].
  apply relative_to_inv in Er as ->. intros Hb.
  apply StronglySorted_inv in Hs as [Hs Hfirst].
  assert (leaf t0 rel) as Hnew.
  { apply (add_parts_adds_leaf _ _ _ Ea). intros Hd.
    destruct (Hdir _ Hd) as (r & Hr & Hin).
    specialize (Hle _ (root ++ rel) Hin ltac:(constructor)).
    rewrite app_assoc, path_le_extension in Hle; done. }
  intros q Hq. apply (IH (processed ++ [root ++ rel]) t0 t').
  - intros p g Hp Hg. apply elem_of_app in Hp as [Hp|Hp%list_elem_of_singleton].
    + apply Hle; [done|by constructor].
    + subst. by apply (proj1 (Forall_forall _ _) Hfirst).
  - done.
  - intros q0 Hq0. apply elem_of_app in Hq0 as [Hq0|Hq0%list_elem_of_singleton].
    + apply (add_parts_keeps_leaves _ _ _ Ea). by apply Hleaf.
    + apply app_inv_head in Hq0. by subst.
  - intros q0 Hq0. destruct (add_parts_dirs _ _ _ Ea _ Hq0) as [Hd|(r & Hr & ->)].
    + destruct (Hdir _ Hd) as (r & Hr & Hin). exists r. split; [done|].
      apply elem_of_app. by left.
    + exists r. split; [done|]. apply elem_of_app. right. constructor.
  - done.
  - by rewrite <- app_assoc.
Qed.

Lemma build_tree_dirs root files : ∀ processed t t',
  build_tree root files t = Return t' →
  (∀ q, dir_at t q → ∃ r, r ≠ [] ∧ root ++ q ++ r ∈ processed) →
  ∀ q, dir_at t' q → ∃ r, r ≠ [] ∧ root ++ q ++ r ∈ processed ++ files.
Proof.
  induction files as [|f files IH]; intros processed t t'.
  { intros [= <-] Hdir q Hq. rewrite app_nil_r. by apply Hdir. }
  cbn [build_tree].
  destruct (relative_to f root) as [rel|] eqn:Er; [|done].
  destruct (add_parts rel t) as [t0|] eqn:Ea; [|done].
  apply relative_to_inv in Er as ->. intros Hb Hdir q Hq.
  destruct (IH (processed ++ [root ++ rel]) _ _ Hb) with (q := q)
    as (r & Hr & Hin); [|done|].
  - intros q0 Hq0. destruct (add_parts_dirs _ _ _ Ea _ Hq0) as [Hd|(r & Hr & ->)].
    + destruct (Hdir _ Hd) as (r & Hr & Hin). exists r. split; [done|].
      apply elem_of_app. by left.
    + exists r. split; [done|]. apply elem_of_app. right. constructor.
  - exists r. split; [done|]. by rewrite <- app_assoc in Hin.
Qed.


Lemma leaf_prefix_dir t q : ∀ r, q ≠ [] → r ≠ [] → leaf t (q ++ r) → dir_at t q.
Proof.
  revert t. induction q as [|name q IH]; intros t r Hq Hr Hl; [done|].
  inversion Hl as [? n Hn Heq|? n sub rest Hn Hrest [Heq1 Heq2]]; subst.
  - destruct q, r; done.
  - destruct q as [|name' q].
    + by econstructor.
    + econstructor; [done|]. by eapply IH.
Qed.

Lemma sorted_paths_strongly files :
  StronglySorted (λ f g, path_le f g = true) (sorted path_le files).
Proof.
  apply Sorted_StronglySorted.
  - intros x y z. apply (le_of_trans _ path_order_laws).
  - apply (sorted_Sorted _ path_order_laws).
Qed.

Lemma sorted_tree_leaves root files t :
  build_tree root (sorted path_le files) [] = Return t →
  ∀ q, leaf t q ↔ root ++ q ∈ files.
Proof.
  intros Hb q. split.
  - intros Hq. destruct (build_tree_only _ _ _ _ Hb _ Hq) as [Hl|Hin].
    + by apply leaf_nil in Hl.
    + by apply sorted_elem in Hin.
  - intros Hin.
    apply (build_tree_sorted_leaves root (sorted path_le files) [] [] t); try done.
    + intros p f Hp. by apply elem_of_nil in Hp.
    + apply sorted_paths_strongly.
    + intros q0 Hq0. by apply elem_of_nil in Hq0.
    + intros q0 Hq0. by apply dir_at_nil in Hq0.
    + cbn [app]. by apply sorted_elem.
Qed.


(** X13. When the loop over [sorted(files)] ends without raising, the tree
    dictionary holds the given files and nothing else: a relative path
    ends at a file marker exactly when it is one of the files, and at a
    directory exactly when it is a proper ancestor of one. *)
Theorem tree_holds_exactly_the_files (root_path : Path) (files : list Path)
    (t : tree) :
  build_tree root_path (sorted path_le files) [] = Return t →
  (∀ rel_path, leaf t rel_path ↔ root_path ++ rel_path ∈ files)
  ∧ (∀ rel_path,
        dir_at t rel_path
        ↔ rel_path ≠ []
          ∧ ∃ rest, rest ≠ [] ∧ root_path ++ rel_path ++ rest ∈ files).
Proof.
  intros Hb. split; [by apply sorted_tree_leaves|]. intros q. split.
  - intros Hq. split; [by destruct Hq|].
    destruct (build_tree_dirs _ _ [] _ _ Hb) with (q := q) as (r & Hr & Hin);
      [|done|].
    + intros q0 Hq0. by apply dir_at_nil in Hq0.
    + exists r. split; [done|]. by apply sorted_elem in Hin.
  - intros (Hq & r & Hr & Hin). apply (leaf_prefix_dir _ _ r); [done..|].
    by apply (sorted_tree_leaves _ _ _ Hb).
Qed.

Lemma tree_holds_exactly_the_files_witness :
  build_tree example_root (sorted path_le example_files) []
  = Return [(py "a.py", File); (py "sub", Dir [(py "b.py", File)])]
  ∧ leaf [(py "a.py", File); (py "sub", Dir [(py "b.py", File)])]
      [py "sub"; py "b.py"]
  ∧ dir_at [(py "a.py", File); (py "sub", Dir [(py "b.py", File)])] [py "sub"].
Proof.
  assert (build_tree example_root (sorted path_le example_files) []
          = Return [(py "a.py", File); (py "sub", Dir [(py "b.py", File)])])
    as Hb.
  { vm_compute. reflexivity. }
  split; [exact Hb|].
  destruct (tree_holds_exactly_the_files _ _ _ Hb) as [Hleaf Hdir]. split.
  - apply Hleaf. apply (bool_decide_unpack _). vm_compute. exact I.
  - apply Hdir. split; [done|]. exists [py "b.py"]. split; [done|].
    apply (bool_decide_unpack _). vm_compute. exact I.
Defined.

Lemma insert_sorted_total {A} (le : A → A → bool) x l :
  (∀ a b, le a b = false → le b a = true) →
  Sorted (λ a b, le a b = true) l →
  Sorted (λ a b, le a b = true) (insert_sorted le x l).
Proof.
  intros Htotal. induction 1 as [|y l Hs IH Hd]; cbn; [by repeat constructor|].
  destruct (le x y) eqn:E.
  - by repeat constructor.
  - constructor; [done|]. apply Htotal in E.
    destruct l as [|z l]; cbn; [by constructor|].
    destruct (le x z); constructor; [done|]. by inversion Hd.
Qed.

Lemma sorted_total {A} (le : A → A → bool) l :
  (∀ a b, le a b = false → le b a = true) →
  Sorted (λ a b, le a b = true) (sorted le l).
Proof.
  intros Htotal. induction l as [|x l IH]; [constructor|].
  by apply insert_sorted_total.
Qed.

Lemma item_compare_cases (x y : str * node) :
  item_compare x y
  = match is_file x.2, is_file y.2 with
    | true, false => Lt
    | false, true => Gt
    | _, _ => str_compare x.1 y.1
    end.
Proof. unfold item_compare. by destruct (is_file x.2), (is_file y.2). Qed.

Lemma item_le_total x y :
  leb_of item_compare x y = false → leb_of item_compare y x = true.
Proof.
  unfold leb_of. rewrite !item_compare_cases.
  destruct (is_file x.2), (is_file y.2); try done;
    rewrite (cmp_antisym _ str_order_laws x.1 y.1);
    by destruct (str_compare x.1 y.1).
Qed.

#[local] Instance item_le_trans : Transitive item_le.
Proof.
  intros x y z. unfold item_le, leb_of. rewrite !item_compare_cases.
  pose proof (le_of_trans _ str_order_laws x.1 y.1 z.1) as Ht.
  unfold le_of, leb_of in Ht.
  destruct (is_file x.2), (is_file y.2), (is_file z.2); try done; apply Ht.
Qed.

Lemma same_kind_name_le (l : list (str * node)) b :
  Forall (λ item, is_file item.2 = b) l →
  StronglySorted item_le l → StronglySorted name_le l.
Proof.
  induction 1 as [|x l Hx Hl IH]; [constructor|].
  intros [Hs Hall]%StronglySorted_inv. constructor; [by apply IH|].
  apply Forall_forall. intros y Hy.
  pose proof (proj1 (Forall_forall _ _) Hall y Hy) as Hle.
  pose proof (proj1 (Forall_forall _ _) Hl y Hy) as Hb.
  unfold item_le, name_le, leb_of in *. rewrite item_compare_cases, Hx, Hb in Hle.
  by destruct b.
Qed.

(** X14. The items of a directory are drawn in this order: first all the
    files, then all the directories, and each of the two groups by
    ascending name, compared code point by code point. *)
Theorem siblings_are_drawn_files_first (children : tree) :
  ∃ files dirs,
    sorted (leb_of item_compare) children = files ++ dirs
    ∧ files ++ dirs ≡ₚ children
    ∧ Forall (λ item, is_file item.2 = true) files
    ∧ Forall (λ item, is_file item.2 = false) dirs
    ∧ StronglySorted name_le files
    ∧ StronglySorted name_le dirs.
Proof.
  destruct (sorted_items_files_first children) as (files & dirs & E & Hf & Hd).
  exists files, dirs. split; [done|]. split; [by rewrite <- E, sorted_perm|].
  split; [done|]. split; [done|].
  assert (StronglySorted item_le (files ++ dirs)) as Hs.
  { rewrite <- E. apply Sorted_StronglySorted; [apply _|].
    apply sorted_total, item_le_total. }
  split.
  - eapply same_kind_name_le; [done|]. by eapply StronglySorted_app_1_l.
  - eapply same_kind_name_le; [done|]. by eapply StronglySorted_app_1_r.
Qed.

(** ** The command-line program *)

Lemma strip_default_system_prompt :
  strip default_system_prompt = default_system_prompt.
Proof. vm_compute. reflexivity. Qed.

Lemma warned_not_calling (ws : list warning) : CallingApi ∉ Warned <$> ws.
Proof. intros (w & [=] & _)%list_elem_of_fmap. Qed.

Lemma after_raise_says_calling r : ∃ o ms, after_raise r = (o, CallingApi :: ms).
Proof. destruct r; by eexists _, _. Qed.

Lemma after_raise_catches r :
  match (after_raise r).1 with
  | Returns _ => True
  | Raises r => is_RequestException r = false ∧ is_KeyError r = false
  end.
Proof. by destruct r. Qed.



Section ProgramFacts.

Variable lower : str → str.
Variable d : disk.
Variable fs : Path → option entry.
Variable environ : gmap str str.
Variable script_dir : Path.
Variable post : Request → outcome Response.
Variable json_of : Response → outcome json.

Lemma get_api_key_cases :
  (∃ key, environ !! py "DEEPSEEK_API_KEY" = Some key ∧ key ≠ []
          ∧ _get_api_key environ = (Returns key, []))
  ∨ _get_api_key environ = (Raises (SystemExit 1), [ApiKeyNotSet; ApiKeyHint]).
Proof.
  unfold _get_api_key.
  destruct (environ !! py "DEEPSEEK_API_KEY") as [[|c key]|] eqn:E.
  - by right.
  - left. by exists (c :: key).
  - by right.
Qed.

Lemma load_system_prompt_cases :
  (∃ prompt ms, _load_system_prompt d fs script_dir = (Returns prompt, ms)
                ∧ strip prompt = prompt)
  ∨ (∃ ms, _load_system_prompt d fs script_dir = (Raises (SystemExit 1), ms)).
Proof.
  unfold _load_system_prompt.
  destruct (fs (script_dir ++ [py "system_prompt.txt"])) as [e|].
  - run_unfold. unfold io_of. cbn [fst snd].
    destruct (read_text d (script_dir ++ [py "system_prompt.txt"]) utf_8)
      as [content|e'].
    + left. eexists _, _. split; [done|]. apply strip_idempotent.
    + right. by eexists.
  - left. eexists _, _. split; [done|]. apply strip_default_system_prompt.
Qed.

(** X15. Constructing a [CodeReviewer] either succeeds or exits with
    status 1, and raises nothing else. A constructed object holds the value of
    [DEEPSEEK_API_KEY], which is not empty, and a system prompt without
    white space around it: the default one when [system_prompt.txt] does
    not exist beside the script. *)
Theorem reviewer_is_constructed_or_exits :
  (∃ self messages,
      __init__ d fs environ script_dir = (Returns self, messages)
      ∧ environ !! py "DEEPSEEK_API_KEY" = Some (api_key self)
      ∧ api_key self ≠ []
      ∧ strip (system_prompt self) = system_prompt self
      ∧ (fs (script_dir ++ [py "system_prompt.txt"]) = None →
         system_prompt self = default_system_prompt))
  ∨ (∃ messages,
        __init__ d fs environ script_dir = (Raises (SystemExit 1), messages)).
Proof.
  unfold __init__.
  destruct get_api_key_cases as [(key & Hk & Hne & ->)| ->]; [|right; by eexists].
  destruct load_system_prompt_cases as [(prompt & ms & E & Hs)|(ms & E)].
  - left. rewrite E. run_unfold. eexists _, _. split; [done|].
    cbn [api_key system_prompt]. split; [done|]. split; [done|]. split; [done|].
    intros Hnone. unfold _load_system_prompt in E. rewrite Hnone in E.
    by injection E as <- _.
  - right. rewrite E. run_unfold. by eexists.
Qed.

(** The call, one step at a time. *)
Lemma api_call_unfold self prompt :
  ∃ request,
    _call_deepseek_api post json_of self prompt
    = match post request with
      | Raises r => after_raise r
      | Returns response =>
          if ok response then
            match json_of response with
            | Raises r => after_raise r
            | Returns result =>
                match first_content result with
                | Raises r => after_raise r
                | Returns content => (Returns content, [CallingApi])
                end
            end
          else after_raise (RequestException (Some response))
      end.
Proof.
  unfold _call_deepseek_api.
  match goal with
  | |- context [post ?q] => exists q; destruct (post q) as [response|r]
  end; run_unfold; cbn [app]; [|by raised_case r].
  unfold raise_for_status. destruct (ok response) eqn:Hok; cbn [app].
  2:{ cbn. by rewrite Hok. }
  destruct (json_of response) as [result|r]; cbn [app]; [|by raised_case r].
  unfold first_content.
  destruct (getitem result (Key (py "choices"))) as [choices|r]; cbn [app];
    [|by raised_case r].
  destruct (getitem choices (Index 0)) as [choice|r]; cbn [app];
    [|by raised_case r].
  destruct (getitem choice (Key (py "message"))) as [message|r]; cbn [app];
    [|by raised_case r].
  destruct (getitem message (Key (py "content"))) as [content|r]; cbn [app];
    [done|by raised_case r].
Qed.

Lemma api_says_calling self prompt :
  ∃ o ms, _call_deepseek_api post json_of self prompt = (o, CallingApi :: ms).
Proof.
  destruct (api_call_unfold self prompt) as [request ->].
  destruct (post request) as [response|r]; [|apply after_raise_says_calling].
  destruct (ok response); [|apply after_raise_says_calling].
  destruct (json_of response) as [result|r]; [|apply after_raise_says_calling].
  destruct (first_content result); [by eexists _, _|apply after_raise_says_calling].
Qed.

(** X16. [_call_deepseek_api] lets no [RequestException] and no [KeyError]
    out, whatever the server and the decoder do: it returns, or it raises
    an exception of another class. *)
Theorem api_call_catches_its_classes (self : CodeReviewer) (prompt : str) :
  match (_call_deepseek_api post json_of self prompt).1 with
  | Returns _ => True
  | Raises r => is_RequestException r = false ∧ is_KeyError r = false
  end.
Proof.
  destruct (api_call_unfold self prompt) as [request ->].
  destruct (post request) as [response|r]; [|apply after_raise_catches].
  destruct (ok response); [|apply after_raise_catches].
  destruct (json_of response) as [result|r]; [|apply after_raise_catches].
  destruct (first_content result); [done|apply after_raise_catches].
Qed.

(** X17. When the server answers with a status from 400 to 599,
    [_call_deepseek_api] returns [None] after two lines: the call and the
    error. The body of the answer is not printed, because a response with
    such a status is false in [if ... and e.response:]. *)
Theorem http_error_status_hides_the_body (self : CodeReviewer) (prompt : str)
    (response : Response) :
  (∀ request, post request = Returns response) →
  ok response = false →
  _call_deepseek_api post json_of self prompt
  = (Returns JNone, [CallingApi; ApiError (RequestException (Some response))]).
Proof.
  intros Hpost Hok. destruct (api_call_unfold self prompt) as [request ->].
  rewrite Hpost, Hok. cbn. by rewrite Hok.
Qed.

(** X18. A reply that is an object is handled by its [choices]: without
    that key the function prints that the format is unexpected and
    returns [None]; with an empty list there it raises [IndexError], and
    with [null] there [TypeError], neither of which it catches. *)
Theorem malformed_replies_escape (self : CodeReviewer) (prompt : str)
    (response : Response) (items : list (str * json)) :
  (∀ request, post request = Returns response) →
  ok response = true →
  json_of response = Returns (JDict items) →
  (dict_get (py "choices") items = None →
   _call_deepseek_api post json_of self prompt
   = (Returns JNone, [CallingApi; UnexpectedFormat]))
  ∧ (dict_get (py "choices") items = Some (JList []) →
     _call_deepseek_api post json_of self prompt
     = (Raises (Exn IndexError), [CallingApi]))
  ∧ (dict_get (py "choices") items = Some JNone →
     _call_deepseek_api post json_of self prompt
     = (Raises (Exn TypeError), [CallingApi])).
Proof.
  intros Hpost Hok Hjson. destruct (api_call_unfold self prompt) as [request ->].
  rewrite Hpost, Hok, Hjson. unfold first_content. cbn [getitem].
  split; [|split]; by intros ->.
Qed.

Lemma review_independent post' json_of' self args :
  CallingApi ∉ (review lower d fs post json_of self args).2 →
  review lower d fs post json_of self args
  = review lower d fs post' json_of' self args.
Proof.
  unfold review. destruct (fs (target args)) as [e|]; [|done].
  destruct (load_ignore_patterns_returns d (ignore_file args))
    as (pats & w & -> & _).
  run_unfold.
  destruct (_collect_files lower (target args) e (recursive args) pats (language args))
    as [[[|f files]|r] w']; cbn [fst snd app]; try done.
  destruct (_build_prompt (read_text d)
              (if is_regular e then parent (target args) else target args)
              (f :: files)) as [[prompt|r] w'']; cbn [fst snd app]; try done.
  destruct (api_says_calling self prompt) as (o & ms & ->).
  intros Hnot. destruct Hnot.
  destruct o as [v|r]; [destruct (truthy v)|]; cbn;
    repeat (apply elem_of_app; right); repeat (apply elem_of_cons; right);
    repeat (apply elem_of_app; right); constructor.
Qed.

(** X19. [review] calls the server exactly when the target exists, the
    traversal yields at least one file and the document is built. In
    every other case it ends as it does whatever the server would answer:
    with [False] for a missing target, with [True] when no file is
    found. *)
Theorem request_made_iff (self : CodeReviewer) (args : Namespace) :
  (CallingApi ∈ (review lower d fs post json_of self args).2
   ↔ ∃ disk_entry ignore_patterns w files w' prompt w'',
       fs (target args) = Some disk_entry
       ∧ _load_ignore_patterns d (ignore_file args) = (Return ignore_patterns, w)
       ∧ _collect_files lower (target args) disk_entry (recursive args)
           ignore_patterns (language args) = (Return files, w')
       ∧ files ≠ []
       ∧ _build_prompt (read_text d)
           (if is_regular disk_entry then parent (target args) else target args)
           files = (Return prompt, w''))
  ∧ (CallingApi ∉ (review lower d fs post json_of self args).2 →
     ∀ post' json_of',
       review lower d fs post' json_of' self args
       = review lower d fs post json_of self args)
  ∧ (fs (target args) = None →
     (review lower d fs post json_of self args).1 = Returns false)
  ∧ (∀ disk_entry ignore_patterns w w',
        fs (target args) = Some disk_entry →
        _load_ignore_patterns d (ignore_file args) = (Return ignore_patterns, w) →
        _collect_files lower (target args) disk_entry (recursive args)
          ignore_patterns (language args) = (Return [], w') →
        (review lower d fs post json_of self args).1 = Returns true).
Proof.
  split; [|split; [|split]].
  2:{ intros Hnot post' json_of'. symmetry. by apply review_independent. }
  2:{ intros Hfs. unfold review. by rewrite Hfs. }
  2:{ intros e pats w w' Hfs Hload Hc. unfold review.
      rewrite Hfs, Hload. run_unfold. by rewrite Hc. }
  unfold review. destruct (fs (target args)) as [e|].
  2:{ split.
      - cbn. by intros [[=]|?%elem_of_nil]%elem_of_cons.
      - by intros (? & ? & ? & ? & ? & ? & ? & [=] & _). }
  destruct (load_ignore_patterns_returns d (ignore_file args))
    as (pats & w & Hload & _). rewrite Hload.
  run_unfold.
  destruct (_collect_files lower (target args) e (recursive args) pats (language args))
    as [[files|r] w'] eqn:Hc; cbn [fst snd app].
  2:{ split.
      - rewrite <- fmap_app. by intros ?%warned_not_calling.
      - intros (e0 & p0 & w0 & fs0 & w0' & _ & _ & [= <-] & [= <- <-] & Hc' & _).
        by rewrite Hc in Hc'. }
  destruct files as [|f files].
  { split.
    - run_simpl. rewrite !elem_of_app, list_elem_of_singleton.
      intros [?%warned_not_calling|[?%warned_not_calling|[=]]]; done.
    - intros (e0 & p0 & w0 & fs0 & w0' & _ & _ & [= <-] & [= <- <-] & Hc' & Hne & _).
      rewrite Hc in Hc'. by injection Hc' as <- _. }
  destruct (_build_prompt (read_text d)
              (if is_regular e then parent (target args) else target args)
              (f :: files)) as [[prompt|r] w''] eqn:Hp; cbn [fst snd app].
  2:{ split.
      - run_simpl. rewrite !elem_of_app, elem_of_cons.
        intros [?%warned_not_calling|[?%warned_not_calling
               |[[=]|?%warned_not_calling]]]; done.
      - intros (e0 & p0 & w0 & fs0 & w0' & pr & w0'' & [= <-] & [= <- <-]
                & Hc' & _ & Hp').
        rewrite Hc in Hc'. injection Hc' as <- <-. by rewrite Hp in Hp'. }
  split.
  - intros _. by exists e, pats, w, (f :: files), w', prompt, w''.
  - intros _. destruct (api_says_calling self prompt) as (o & ms & ->).
    destruct o as [v|r]; [destruct (truthy v)|]; cbn;
      repeat (apply elem_of_app; right); repeat (apply elem_of_cons; right);
      repeat (apply elem_of_app; right); constructor.
Qed.




(** X22. [main] always ends in [sys.exit]: with status 0 after a review
    that returned [True], with 1 after one that returned [False] or after
    an exception, with 130 after [KeyboardInterrupt], and with the status
    of a [SystemExit] raised on the way, by [parse_arguments] or by the
    constructor. *)
Theorem main_exit_status (parse_arguments : outcome Namespace) :
  ∃ messages,
    main lower d fs environ script_dir post json_of parse_arguments
    = (Raises
         (SystemExit
            match parse_arguments with
            | Raises r => status_of r
            | Returns args =>
                match (__init__ d fs environ script_dir).1 with
                | Raises r => status_of r
                | Returns self =>
                    match (review lower d fs post json_of self args).1 with
                    | Returns true => 0
                    | Returns false => 1
                    | Raises r => status_of r
                    end
                end
            end),
       messages).
Proof.
  unfold main. run_unfold.
  destruct parse_arguments as [args|r]; cbn [app].
  2:{ destruct r; by eexists. }
  destruct (__init__ d fs environ script_dir) as [[self|r] ms]; cbn [fst].
  2:{ destruct r; by eexists. }
  destruct (review lower d fs post json_of self args) as [[[|]|r] ms']; cbn [fst].
  - by eexists.
  - by eexists.
  - destruct r; by eexists.
Qed.

End ProgramFacts.

Lemma http_error_status_hides_the_body_witness :
  (∀ request,
      answers 401 request = Returns {| status_code := 401; text := py "body" |})
  ∧ ok {| status_code := 401; text := py "body" |} = false
  ∧ _call_deepseek_api (answers 401) (decodes_to example_reply) example_reviewer
      (py "prompt")
    = (Returns JNone,
       [CallingApi;
        ApiError (RequestException
                    (Some {| status_code := 401; text := py "body" |}))]).
Proof.
  split; [done|]. split; [done|].
  by apply (http_error_status_hides_the_body (answers 401)).
Defined.

Lemma malformed_replies_escape_witness :
  (∀ request,
      answers 200 request = Returns {| status_code := 200; text := py "body" |})
  ∧ ok {| status_code := 200; text := py "body" |} = true
  ∧ _call_deepseek_api (answers 200)
      (decodes_to (JDict [(py "choices", JList [])])) example_reviewer
      (py "prompt")
    = (Raises (Exn IndexError), [CallingApi]).
Proof.
  split; [done|]. split; [done|].
  destruct (malformed_replies_escape (answers 200)
              (decodes_to (JDict [(py "choices", JList [])])) example_reviewer
              (py "prompt") {| status_code := 200; text := py "body" |}
              [(py "choices", JList [])]) as (_ & H & _); [done..|].
  by apply H.
Defined.



Example review_of_the_example_directory :
  main ascii_lower example_disk example_fs {[ py "DEEPSEEK_API_KEY" := py "secret" ]}
    [py "tool"] (answers 200) (decodes_to example_reply) (Returns directory_args)
  = (Raises (SystemExit 0),
     [ SystemPromptNotFound [py "tool"]; UsingDefaultPrompt; FoundFiles 2;
       CallingApi; RuleAbove; ResultsTitle; RuleBelow;
       Printed (JStr (py "Looks fine.")) ]).
Proof. vm_compute. reflexivity. Qed.

Example empty_choices_end_with_status_1 :
  main ascii_lower example_disk example_fs {[ py "DEEPSEEK_API_KEY" := py "secret" ]}
    [py "tool"] (answers 200) (decodes_to (JDict [(py "choices", JList [])]))
    (Returns directory_args)
  = (Raises (SystemExit 1),
     [ SystemPromptNotFound [py "tool"]; UsingDefaultPrompt; FoundFiles 2;
       CallingApi; UnexpectedError (Exn IndexError) ]).
Proof. vm_compute. reflexivity. Qed.
